(** * PromptRecord: the side-panel prompt manager

    A shallow embedding of [class PromptManager] (the panel's main script)
    and the properties its specification states about it.

    JavaScript strings are sequences of UTF-16 code units; the embedding
    keeps them as lists of code units so that [split], [trim], [includes]
    and the default [sort] order are the ones of the language.  The host
    (clock, identifier generator, [chrome.storage.local], the DOM) is made
    explicit: what the host answers during a call is an argument of the
    call, what the host stores is a field of the world. *)

From Stdlib Require Import NArith Ascii String.
From stdpp Require Import base tactics option list sorting.

Local Open Scope N_scope.

(* ===================================================================== *)
(** * JavaScript strings *)
(* ===================================================================== *)

Module JS.

(** A string value: its UTF-16 code units, in order. *)
Definition jsstring : Type := list N.

(** An ASCII literal as a string value (ASCII characters are their own
    code units). *)
Definition js (s : string) : jsstring :=
  map N_of_ascii (list_ascii_of_string s).

(** [ToBoolean] on a string: the empty string is the only falsy one. *)
Definition truthy (s : jsstring) : bool :=
  match s with
  | [] => false
  | _ :: _ => true
  end.

(** [ToBoolean] on a property that may be absent ([undefined]). *)
Definition truthy_opt (o : option jsstring) : bool :=
  match o with
  | None => false
  | Some s => truthy s
  end.

(** [a || b] where [a] may be absent and [b] is a string. *)
Definition or_else (o : option jsstring) (d : jsstring) : jsstring :=
  match o with
  | Some s => if truthy s then s else d
  | None => d
  end.

(** Strict equality [===] on strings: same code units. *)
Definition str_eqb (a b : jsstring) : bool := bool_decide (a = b).

(** The code units [String.prototype.trim] strips: WhiteSpace
    (TAB, VT, FF, SP, NBSP, ZWNBSP and the Unicode space separators)
    and LineTerminator (LF, CR, LS, PS). *)
Definition isWhiteSpace (c : N) : bool :=
  (c =? 0x09) || (c =? 0x0A) || (c =? 0x0B) || (c =? 0x0C) || (c =? 0x0D)
  || (c =? 0x20) || (c =? 0xA0) || (c =? 0x1680)
  || ((0x2000 <=? c) && (c <=? 0x200A))
  || (c =? 0x2028) || (c =? 0x2029) || (c =? 0x202F) || (c =? 0x205F)
  || (c =? 0x3000) || (c =? 0xFEFF).

Fixpoint trimStart (s : jsstring) : jsstring :=
  match s with
  | [] => []
  | c :: s' => if isWhiteSpace c then trimStart s' else s
  end.

Definition trimEnd (s : jsstring) : jsstring :=
  reverse (trimStart (reverse s)).

(** [s.trim()] *)
Definition trim (s : jsstring) : jsstring := trimEnd (trimStart s).

(** [s.split(sep)] for a separator of one code unit: scan left to right,
    [acc] holds the current piece reversed.  The empty string splits into
    one empty piece. *)
Fixpoint split_from (sep : N) (acc : jsstring) (s : jsstring)
  : list jsstring :=
  match s with
  | [] => [reverse acc]
  | c :: s' =>
      if c =? sep then reverse acc :: split_from sep [] s'
      else split_from sep (c :: acc) s'
  end.

Definition split (sep : N) (s : jsstring) : list jsstring :=
  split_from sep [] s.

(** Code unit of [','] *)
Definition comma : N := 0x2C.

(** [pieces.join(sep)] for a separator of one code unit. *)
Fixpoint join (sep : N) (pieces : list jsstring) : jsstring :=
  match pieces with
  | [] => []
  | [p] => p
  | p :: rest => p ++ sep :: join sep rest
  end.

(** [t] occurs in [s] at position 0. *)
Fixpoint startsWith (s t : jsstring) {struct t} : bool :=
  match t, s with
  | [], _ => true
  | _ :: _, [] => false
  | b :: t', a :: s' => (a =? b) && startsWith s' t'
  end.

(** [s.includes(t)]: [t] occurs in [s] at some position. *)
Fixpoint includes (s t : jsstring) : bool :=
  startsWith s t ||
  match s with
  | [] => false
  | _ :: s' => includes s' t
  end.

(** The comparison behind [<] on strings and the default comparator of
    [Array.prototype.sort]: code unit by code unit, a proper prefix
    comes first. *)
Fixpoint compare (a b : jsstring) : comparison :=
  match a, b with
  | [], [] => Eq
  | [], _ :: _ => Lt
  | _ :: _, [] => Gt
  | x :: a', y :: b' =>
      match x ?= y with
      | Eq => compare a' b'
      | c => c
      end
  end.

Definition lt (a b : jsstring) : Prop := compare a b = Lt.
Definition le (a b : jsstring) : Prop := compare a b <> Gt.

Global Instance le_dec a b : Decision (le a b).
Proof. unfold le. destruct (compare a b); [left|left|right]; congruence. Defined.

(** [arr.sort()] on an array of strings. *)
Definition sort (l : list jsstring) : list jsstring := merge_sort le l.

(** [Array.prototype.includes] on an array of strings. *)
Definition arr_includes (l : list jsstring) (x : jsstring) : bool :=
  existsb (str_eqb x) l.

(** A [Set] of strings: its elements in insertion order. *)
Definition set_add (x : jsstring) (s : list jsstring) : list jsstring :=
  if arr_includes s x then s else s ++ [x].

End JS.

(* ===================================================================== *)
(** * The data model *)
(* ===================================================================== *)

(** A stored prompt.  [groups] may be missing on a stored record (the code
    guards every read of it); the other properties are strings. *)
Module Prompt.
Record t : Type := mk {
  id : JS.jsstring;
  title : JS.jsstring;
  content : JS.jsstring;
  category : JS.jsstring;
  groups : option (list JS.jsstring);
  createdAt : JS.jsstring;
  updatedAt : JS.jsstring
}.

Global Instance eq_dec : EqDecision t.
Proof. solve_decision. Defined.
End Prompt.

(** The [data] object handed to [addPrompt] and [updatePrompt]: the values
    of the form's fields.  [category] and [groups] may be absent. *)
Module Data.
Record t : Type := mk {
  title : JS.jsstring;
  content : JS.jsstring;
  category : option JS.jsstring;
  groups : option JS.jsstring
}.
End Data.

(** [this.currentFilter] *)
Module Filter.
Record t : Type := mk {
  search : JS.jsstring;
  category : JS.jsstring;
  group : JS.jsstring
}.

Definition empty : t := mk [] [] [].
End Filter.

(* ===================================================================== *)
(** * The manager and its host *)
(* ===================================================================== *)

Module PM.
Import JS.

(** Calls into the rendering collaborator, in the order they are made. *)
Inductive UiCall : Type :=
| BindEvents
| Render
| UpdateFilters.

(** The manager's fields ([prompts], [currentFilter]) together with what
    the host holds: the value under the key ['prompts'] of
    [chrome.storage.local] (absent until first written) and the calls
    received by the panel. *)
Record World : Type := mkWorld {
  prompts : list Prompt.t;
  currentFilter : Filter.t;
  storage : option (list Prompt.t);
  ui : list UiCall
}.

(** What the host answers during one call of a method: the string
    [new Date().toISOString()] evaluates to, the string
    [this.generateId()] returns (it is made of the clock and of
    [Math.random()]), and whether [chrome.storage.local.set] resolves. *)
Record Host : Type := mkHost {
  isoNow : jsstring;
  generateId : jsstring;
  storageSetOk : bool
}.

(** ** A state monad with exceptions

    A method runs on a world and either returns or throws (an [async]
    method: resolves or rejects); the world it leaves behind is kept in
    both cases, nothing is rolled back. *)
Inductive Completion (A : Type) : Type :=
| Normal (a : A)
| Throw.
Arguments Normal {A} a.
Arguments Throw {A}.

Definition M (A : Type) : Type := World -> Completion A * World.

Definition ret {A} (a : A) : M A := fun w => (Normal a, w).

Definition bind {A B} (m : M A) (k : A -> M B) : M B :=
  fun w =>
    match m w with
    | (Normal a, w') => k a w'
    | (Throw, w') => (Throw, w')
    end.

#[global] Instance M_ret : MRet M := @ret.
#[global] Instance M_bind : MBind M := fun A B k m => bind m k.

Definition get_prompts : M (list Prompt.t) := fun w => (Normal (prompts w), w).

Definition set_prompts (ps : list Prompt.t) : M unit :=
  fun w => (Normal tt, mkWorld ps (currentFilter w) (storage w) (ui w)).

Definition storage_get : M (option (list Prompt.t)) :=
  fun w => (Normal (storage w), w).

Definition storage_set (h : Host) (ps : list Prompt.t) : M unit :=
  fun w =>
    if storageSetOk h
    then (Normal tt, mkWorld (prompts w) (currentFilter w) (Some ps) (ui w))
    else (Throw, w).

Definition call_ui (c : UiCall) : M unit :=
  fun w => (Normal tt, mkWorld (prompts w) (currentFilter w) (storage w) (ui w ++ [c])).

(** The world a call leaves behind, and how the call completed. *)
Definition exec {A} (m : M A) (w : World) : World := snd (m w).
Definition completion {A} (m : M A) (w : World) : Completion A := fst (m w).

(** ** Methods of [PromptManager] *)

(** [loadPrompts]: [this.prompts = result.prompts || []] *)
Definition loadPrompts : M unit :=
  result ← storage_get;
  set_prompts (match result with Some ps => ps | None => [] end).

(** [savePrompts] *)
Definition savePrompts (h : Host) : M unit :=
  ps ← get_prompts;
  storage_set h ps.

(** [bindEvents], [render] and [updateFilters] act on the panel only. *)
Definition bindEvents : M unit := call_ui BindEvents.
Definition render : M unit := call_ui Render.
Definition updateFilters : M unit := call_ui UpdateFilters.

(** [new PromptManager()] over a storage area holding [st]: the fields as
    the constructor sets them, before [init] runs. *)
Definition constructed (st : option (list Prompt.t)) : World :=
  mkWorld [] (Filter.mk [] [] []) st [].

(** [init()] *)
Definition init : M unit :=
  loadPrompts;;
  bindEvents;;
  render;;
  updateFilters.

(** The literal the code substitutes for a falsy category:
    U+672A U+5206 U+7C7B. *)
Definition defaultCategory : jsstring := [0x672A; 0x5206; 0x7C7B].

(** [data.groups ? data.groups.split(',').map(g => g.trim()).filter(g => g) : []] *)
Definition parseGroups (g : option jsstring) : list jsstring :=
  match g with
  | Some s =>
      if truthy s
      then List.filter truthy (map trim (split comma s))
      else []
  | None => []
  end.

(** The object literal built by [addPrompt]. *)
Definition newPrompt (h : Host) (data : Data.t) : Prompt.t :=
  let now := isoNow h in
  {| Prompt.id := generateId h;
     Prompt.title := Data.title data;
     Prompt.content := Data.content data;
     Prompt.category := or_else (Data.category data) defaultCategory;
     Prompt.groups := Some (parseGroups (Data.groups data));
     Prompt.createdAt := now;
     Prompt.updatedAt := now |}.

(** [addPrompt(data)] *)
Definition addPrompt (h : Host) (data : Data.t) : M unit :=
  let prompt := newPrompt h data in
  ps ← get_prompts;
  set_prompts (prompt :: ps);;
  savePrompts h;;
  render;;
  updateFilters.

(** [arr.findIndex(f)]: the first index whose element satisfies [f],
    [-1] when there is none. *)
Fixpoint findIndex_from {A} (i : Z) (f : A -> bool) (l : list A) : Z :=
  match l with
  | [] => (-1)%Z
  | x :: l' => if f x then i else findIndex_from (i + 1)%Z f l'
  end.

Definition findIndex {A} (f : A -> bool) (l : list A) : Z :=
  findIndex_from 0%Z f l.

(** The object literal built by [updatePrompt]: the spread of the old
    record, then the overriding properties. *)
Definition updatedPrompt (h : Host) (data : Data.t) (old : Prompt.t)
  : Prompt.t :=
  {| Prompt.id := Prompt.id old;
     Prompt.title := Data.title data;
     Prompt.content := Data.content data;
     Prompt.category := or_else (Data.category data) defaultCategory;
     Prompt.groups := Some (parseGroups (Data.groups data));
     Prompt.createdAt := Prompt.createdAt old;
     Prompt.updatedAt := isoNow h |}.

(** [updatePrompt(id, data)] *)
Definition updatePrompt (h : Host) (id : jsstring) (data : Data.t) : M unit :=
  ps ← get_prompts;
  let index := findIndex (fun p => str_eqb (Prompt.id p) id) ps in
  if (index =? -1)%Z then mret tt
  else
    set_prompts (alter (updatedPrompt h data) (Z.to_nat index) ps);;
    savePrompts h;;
    render;;
    updateFilters.

(** [deletePrompt(id)] *)
Definition deletePrompt (h : Host) (id : jsstring) : M unit :=
  ps ← get_prompts;
  set_prompts (List.filter (fun p => negb (str_eqb (Prompt.id p) id)) ps);;
  savePrompts h;;
  render;;
  updateFilters.

(** [getCategories()] *)
Definition getCategories (w : World) : list jsstring :=
  let categories :=
    fold_left
      (fun categories prompt =>
         if truthy (Prompt.category prompt)
         then set_add (Prompt.category prompt) categories
         else categories)
      (prompts w) [] in
  sort categories.

(** [getGroups()] *)
Definition getGroups (w : World) : list jsstring :=
  let groups :=
    fold_left
      (fun groups prompt =>
         match Prompt.groups prompt with
         | Some gs => fold_left (fun groups group => set_add group groups) gs groups
         | None => groups
         end)
      (prompts w) [] in
  sort groups.

Section Filtering.
(** [String.prototype.toLowerCase], the host's Unicode lower-casing. *)
Variable toLowerCase : jsstring -> jsstring.

(** The callback of [getFilteredPrompts], with its early returns. *)
Definition keepPrompt (f : Filter.t) (prompt : Prompt.t) : bool :=
  if truthy (Filter.search f) &&
     (let searchLower := toLowerCase (Filter.search f) in
      let matchTitle := includes (toLowerCase (Prompt.title prompt)) searchLower in
      let matchContent := includes (toLowerCase (Prompt.content prompt)) searchLower in
      negb matchTitle && negb matchContent)
  then false
  else if truthy (Filter.category f) &&
          negb (str_eqb (Prompt.category prompt) (Filter.category f))
  then false
  else if truthy (Filter.group f) &&
          match Prompt.groups prompt with
          | None => true
          | Some gs => negb (arr_includes gs (Filter.group f))
          end
  then false
  else true.

(** [getFilteredPrompts()] *)
Definition getFilteredPrompts (w : World) : list Prompt.t :=
  List.filter (keepPrompt (currentFilter w)) (prompts w).
End Filtering.

(** Lower-casing of the ASCII letters, which is what [toLowerCase] does
    on ASCII text. *)
Definition asciiLower (s : jsstring) : jsstring :=
  map (fun c => if (0x41 <=? c) && (c <=? 0x5A) then c + 0x20 else c) s.

(** A run of [addPrompt] calls, one per form submission; a call that
    throws does not stop the next one. *)
Fixpoint addAll (calls : list (Host * Data.t)) (w : World) : World :=
  match calls with
  | [] => w
  | (h, data) :: rest => addAll rest (exec (addPrompt h data) w)
  end.

End PM.

(* ===================================================================== *)
(** * Sample inputs *)
(* ===================================================================== *)

Module Sample.
Import JS PM.

(** [{title:"A", content:"hello world", category:"", groups:"x, y, "}] *)
Definition form_a : Data.t :=
  Data.mk (js "A") (js "hello world") (Some (js "")) (Some (js "x, y, ")).

(** [{title:"B", content:"Write TESTS", category:"work", groups:"dev"}] *)
Definition form_b : Data.t :=
  Data.mk (js "B") (js "Write TESTS") (Some (js "work")) (Some (js "dev")).

Definition host1 : Host :=
  mkHost (js "2024-05-01T10:00:00.000Z") (js "lvo3k2a0x1") true.

Definition host2 : Host :=
  mkHost (js "2024-05-02T08:30:00.000Z") (js "lvpfq91c7d") true.

(** A host whose storage rejects the write. *)
Definition host_full : Host :=
  mkHost (js "2024-05-03T09:00:00.000Z") (js "lvqz00aa11") false.

(** A freshly constructed manager over an empty storage area. *)
Definition fresh : World := constructed None.

Definition p_work : Prompt.t :=
  Prompt.mk (js "p1") (js "Standup") (js "notes for Monday") (js "work")
            (Some [js "dev"; js "team"])
            (js "2024-04-01T00:00:00.000Z") (js "2024-04-01T00:00:00.000Z").

Definition p_life : Prompt.t :=
  Prompt.mk (js "p2") (js "Groceries") (js "Milk and eggs") (js "life")
            None
            (js "2024-04-02T00:00:00.000Z") (js "2024-04-03T00:00:00.000Z").

(** A stored record that carries the id of [p_work] again. *)
Definition p_twin : Prompt.t :=
  Prompt.mk (js "p1") (js "Retro") (js "what went well") (js "work")
            (Some [])
            (js "2024-04-05T00:00:00.000Z") (js "2024-04-05T00:00:00.000Z").

Definition two : World :=
  mkWorld [p_work; p_life] Filter.empty (Some [p_work; p_life]) [].

Definition twins : World :=
  mkWorld [p_work; p_life; p_twin] Filter.empty
          (Some [p_work; p_life; p_twin]) [].

End Sample.

(* ===================================================================== *)
(** * What the specification says, in its own words *)
(* ===================================================================== *)

Module Spec.
Import JS.

(** The sentinel category as the specification spells it. *)
Definition uncategorized : jsstring := js "uncategorized".

Definition white (c : N) : Prop := isWhiteSpace c = true.

(** "split on commas": [ps] are the pieces of [s] between its commas. *)
Definition SplitOn (sep : N) (s : jsstring) (ps : list jsstring) : Prop :=
  ps ≠ [] ∧ join sep ps = s ∧ Forall (λ p, sep ∉ p) ps.

(** "trimmed of surrounding whitespace": [t] is [s] without the
    whitespace at its two ends. *)
Definition Stripped (s t : jsstring) : Prop :=
  ∃ l r, s = l ++ t ++ r ∧ Forall white l ∧ Forall white r ∧
         (∀ c, head t = Some c → ¬ white c) ∧
         (∀ c, last t = Some c → ¬ white c).

(** The groups derived from the comma-separated input: split, trim each
    piece, discard the empty results; nothing when the input is falsy. *)
Definition derived_groups (input : option jsstring) (gs : list jsstring)
  : Prop :=
  match input with
  | None | Some [] => gs = []
  | Some s =>
      ∃ ps ts, SplitOn comma s ps ∧ Forall2 Stripped ps ts ∧
               gs = filter (λ t, t ≠ []) ts
  end.

(** [r] is [l] restricted to the elements satisfying [P], in the order
    of [l]. *)
Inductive Selects {A} (P : A → Prop) : list A → list A → Prop :=
| Selects_nil : Selects P [] []
| Selects_keep x l r : P x → Selects P l r → Selects P (x :: l) (x :: r)
| Selects_skip x l r : ¬ P x → Selects P l r → Selects P (x :: l) r.

Section Filtering.
Variable toLowerCase : jsstring → jsstring.

(** "case-insensitive substring match": the needle occurs in the text
    once both are lower-cased. *)
Definition matches_ci (text needle : jsstring) : Prop :=
  ∃ pre post, toLowerCase text = pre ++ toLowerCase needle ++ post.

(** The three filter predicates, each vacuously true when unset. *)
Definition search_ok (f : Filter.t) (p : Prompt.t) : Prop :=
  Filter.search f = [] ∨
  matches_ci (Prompt.title p) (Filter.search f) ∨
  matches_ci (Prompt.content p) (Filter.search f).

Definition category_ok (f : Filter.t) (p : Prompt.t) : Prop :=
  Filter.category f = [] ∨ Prompt.category p = Filter.category f.

Definition group_ok (f : Filter.t) (p : Prompt.t) : Prop :=
  Filter.group f = [] ∨
  ∃ gs, Prompt.groups p = Some gs ∧ Filter.group f ∈ gs.

Definition passes (f : Filter.t) (p : Prompt.t) : Prop :=
  search_ok f p ∧ category_ok f p ∧ group_ok f p.
End Filtering.

(** Ids are pairwise distinct across the collection. *)
Definition unique_ids (ps : list Prompt.t) : Prop :=
  NoDup (Prompt.id <$> ps).

End Spec.

(* ===================================================================== *)
(** * The rest of the panel script *)
(* ===================================================================== *)

(** More of the language: [join], [find], [substr], number to string. *)
Module Lang.
Import JS.

(** [arr.join(sep)] on an array of strings. *)
Fixpoint join_str (sep : jsstring) (l : list jsstring) : jsstring :=
  match l with
  | [] => []
  | [x] => x
  | x :: rest => x ++ sep ++ join_str sep rest
  end.

(** [arr.find(f)]: the first element satisfying [f], [undefined] when
    there is none. *)
Fixpoint find {A} (f : A -> bool) (l : list A) : option A :=
  match l with
  | [] => None
  | x :: l' => if f x then Some x else find f l'
  end.

(** [s.substr(n)]: the string from index [n] on. *)
Definition substr (n : nat) (s : jsstring) : jsstring := drop n s.

(** The digit characters of [Number.prototype.toString]: [0-9a-z]. *)
Definition digitChar (d : N) : N :=
  if d <? 10 then 0x30 + d else 0x57 + d.

(** The digits of a non-negative integer, most significant first.  The
    fuel is the number of binary digits, which bounds the number of digits
    in any radix from 2 on. *)
Fixpoint digits_go (fuel : nat) (radix n : N) (acc : jsstring) : jsstring :=
  match fuel with
  | O => acc
  | S fuel' =>
      let acc' := digitChar (n mod radix) :: acc in
      if n <? radix then acc' else digits_go fuel' radix (n / radix) acc'
  end.

Definition digits (radix n : N) : jsstring :=
  digits_go (S (N.to_nat (N.log2 n))) radix n [].

(** [x.toString(radix)] for an integer [x]; radix 10 is also what a
    template literal does with an integer. *)
Definition toStringRadix (radix : N) (x : Z) : jsstring :=
  match x with
  | Zneg p => 0x2D :: digits radix (Npos p)
  | _ => digits radix (Z.to_N x)
  end.

(** The value of a digit string, for reading [digits] back. *)
Definition digitValue (c : N) : N :=
  if c <? 0x3A then c - 0x30 else c - 0x57.

Definition valueOf (radix : N) (s : jsstring) : N :=
  fold_left (fun v c => v * radix + digitValue c) s 0.

End Lang.

(** One user action on the collection, and runs of them. *)
Module Calls.
Import JS PM.

Inductive Call : Type :=
| Add (data : Data.t)
| Update (id : jsstring) (data : Data.t)
| Delete (id : jsstring).

Definition run (h : Host) (c : Call) : M unit :=
  match c with
  | Add data => addPrompt h data
  | Update id data => updatePrompt h id data
  | Delete id => deletePrompt h id
  end.

(** The calls are made one after the other, each with the answers of the
    host at that time; a call that throws does not stop the next one. *)
Fixpoint runAll (calls : list (Host * Call)) (w : World) : World :=
  match calls with
  | [] => w
  | (h, c) :: rest => runAll rest (exec (run h c) w)
  end.

(** The handlers of the three filter controls. *)
Definition set_filter (f : Filter.t) : M unit :=
  fun w => (Normal tt, mkWorld (prompts w) f (storage w) (ui w)).

Definition onSearchInput (value : jsstring) : M unit :=
  fun w =>
    (set_filter (Filter.mk value (Filter.category (currentFilter w))
                           (Filter.group (currentFilter w)));;
     render) w.

Definition onCategoryChange (value : jsstring) : M unit :=
  fun w =>
    (set_filter (Filter.mk (Filter.search (currentFilter w)) value
                           (Filter.group (currentFilter w)));;
     render) w.

Definition onGroupChange (value : jsstring) : M unit :=
  fun w =>
    (set_filter (Filter.mk (Filter.search (currentFilter w))
                           (Filter.category (currentFilter w)) value);;
     render) w.

End Calls.

(** The edit modal and the handlers of its form. *)
Module Panel.
Import JS PM Lang.

(** The parts of the document the modal code reads and writes: the text
    of [#modalTitle], the [value] of the five form fields, and the
    [style.display] of [#deleteBtn] and [#editModal].  Assigning [value]
    is taken to store the string as it is. *)
Record Modal : Type := mkModal {
  modalTitle : jsstring;
  promptId : jsstring;
  title : jsstring;
  content : jsstring;
  category : jsstring;
  groups : jsstring;
  deleteBtn : jsstring;
  editModal : jsstring
}.

Record Page : Type := mkPage {
  mgr : World;
  modal : Modal
}.

(** U+7F16 U+8F91 U+63D0 U+793A U+8BCD and
    U+65B0 U+5EFA U+63D0 U+793A U+8BCD *)
Definition editTitle : jsstring := [0x7F16; 0x8F91; 0x63D0; 0x793A; 0x8BCD].
Definition addTitle : jsstring := [0x65B0; 0x5EFA; 0x63D0; 0x793A; 0x8BCD].

(** [(prompt.groups || []).join(', ')] *)
Definition groupsText (prompt : Prompt.t) : jsstring :=
  join_str (js ", ")
           (match Prompt.groups prompt with Some gs => gs | None => [] end).

(** [openEditModal(id)] *)
Definition openEditModal (id : jsstring) (pg : Page) : Page :=
  match find (fun p => str_eqb (Prompt.id p) id) (prompts (mgr pg)) with
  | None => pg
  | Some prompt =>
      mkPage (mgr pg)
             {| modalTitle := editTitle;
                promptId := Prompt.id prompt;
                title := Prompt.title prompt;
                content := Prompt.content prompt;
                category := Prompt.category prompt;
                groups := groupsText prompt;
                deleteBtn := js "block";
                editModal := js "flex" |}
  end.

Section Reset.
(** [promptForm.reset()]: what the document's reset does to the modal's
    fields is the host's business. *)
Variable reset : Modal -> Modal.

(** [openAddModal()] *)
Definition openAddModal (pg : Page) : Page :=
  let m := reset (mkModal addTitle (promptId (modal pg)) (title (modal pg))
                          (content (modal pg)) (category (modal pg))
                          (groups (modal pg)) (deleteBtn (modal pg))
                          (editModal (modal pg))) in
  mkPage (mgr pg)
         (mkModal (modalTitle m) [] (title m) (content m) (category m)
                  (groups m) (js "none") (js "flex")).
End Reset.

(** [closeModal()] *)
Definition closeModal (pg : Page) : Page :=
  let m := modal pg in
  mkPage (mgr pg)
         (mkModal (modalTitle m) (promptId m) (title m) (content m)
                  (category m) (groups m) (deleteBtn m) (js "none")).

(** A method of the manager called from a handler of the page. *)
Definition call (m : M unit) (pg : Page) : Completion unit * Page :=
  match m (mgr pg) with
  | (c, w') => (c, mkPage w' (modal pg))
  end.

(** The [data] object the submit handler builds from the form. *)
Definition formData (m : Modal) : Data.t :=
  Data.mk (title m) (content m) (Some (category m)) (Some (groups m)).

(** The [submit] handler of [#promptForm]. *)
Definition onSubmit (h : Host) (pg : Page) : Completion unit * Page :=
  let data := formData (modal pg) in
  let id := promptId (modal pg) in
  match call (if truthy id then updatePrompt h id data else addPrompt h data) pg with
  | (Normal _, pg') => (Normal tt, closeModal pg')
  | (Throw, pg') => (Throw, pg')
  end.

(** The [click] handler of [#deleteBtn]; [confirmed] is the answer of
    [confirm(...)]. *)
Definition onDeleteClick (h : Host) (confirmed : bool) (pg : Page)
  : Completion unit * Page :=
  let id := promptId (modal pg) in
  if confirmed then
    match call (deletePrompt h id) pg with
    | (Normal _, pg') => (Normal tt, closeModal pg')
    | (Throw, pg') => (Throw, pg')
    end
  else (Normal tt, pg).

End Panel.

(** [generateId], [formatDate] and [escapeHtml]. *)
Module Text.
Import JS PM Lang.

(** [generateId()]: [Date.now().toString(36) + Math.random().toString(36).substr(2)],
    given the clock reading and the string [Math.random().toString(36)]. *)
Definition generateId (nowMs : Z) (randomText : jsstring) : jsstring :=
  toStringRadix 36 nowMs ++ substr 2 randomText.

(** U+521A U+521A; U+5206 U+949F U+524D; U+5C0F U+65F6 U+524D;
    U+5929 U+524D *)
Definition justNow : jsstring := [0x521A; 0x521A].
Definition minutesAgo : jsstring := [0x5206; 0x949F; 0x524D].
Definition hoursAgo : jsstring := [0x5C0F; 0x65F6; 0x524D].
Definition daysAgo : jsstring := [0x5929; 0x524D].

Section FormatDate.
(** The time value of [new Date(isoString)], [None] for an invalid date
    ([NaN]); the time value of [new Date()]; and
    [date.toLocaleDateString('zh-CN', ...)].  Time values are integers of
    milliseconds, small enough for their differences to be exact. *)
Variable parseDate : jsstring -> option Z.
Variable nowMs : Z.
Variable toLocaleDateString : option Z -> jsstring.

(** Arithmetic on a number that may be [NaN]: [a < b], [a === b],
    [Math.floor(a / b)] and the text of [a] in a template literal. *)
Definition num_ltb (a : option Z) (b : Z) : bool :=
  match a with
  | Some x => (x <? b)%Z
  | None => false
  end.

Definition num_eqb (a : option Z) (b : Z) : bool :=
  match a with
  | Some x => (x =? b)%Z
  | None => false
  end.

Definition num_floor_div (a : option Z) (b : Z) : option Z :=
  match a with
  | Some x => Some (x / b)%Z
  | None => None
  end.

Definition num_text (a : option Z) : jsstring :=
  match a with
  | Some x => toStringRadix 10 x
  | None => js "NaN"
  end.

(** [formatDate(isoString)] *)
Definition formatDate (isoString : jsstring) : jsstring :=
  let date := parseDate isoString in
  let diff := match date with Some d => Some (nowMs - d)%Z | None => None end in
  if num_ltb diff 86400000 then
    let hours := num_floor_div diff 3600000 in
    if num_eqb hours 0 then
      let minutes := num_floor_div diff 60000 in
      if num_eqb minutes 0 then justNow
      else num_text minutes ++ minutesAgo
    else num_text hours ++ hoursAgo
  else if num_ltb diff 604800000 then
    let days := num_floor_div diff 86400000 in
    num_text days ++ daysAgo
  else toLocaleDateString date.
End FormatDate.

(** [escapeHtml(text)]: the text is put in a [div] as its [textContent]
    and read back as [innerHTML], which writes a text node with
    [&], U+00A0, [<] and [>] replaced by their entities. *)
Definition escapeUnit (c : N) : jsstring :=
  if c =? 0x26 then js "&amp;"
  else if c =? 0xA0 then js "&nbsp;"
  else if c =? 0x3C then js "&lt;"
  else if c =? 0x3E then js "&gt;"
  else [c].

Definition escapeHtml (text : jsstring) : jsstring :=
  flat_map escapeUnit text.

End Text.

(** Shapes of data the code keeps. *)
Module Shape.
Import JS PM Spec.

(** A group label as the form parsing leaves it: not empty, no comma, no
    whitespace at either end. *)
Definition clean (g : jsstring) : Prop :=
  g ≠ [] ∧ (comma ∉ g) ∧
  (∀ c, head g = Some c → ¬ white c) ∧
  (∀ c, last g = Some c → ¬ white c).

(** A prompt as [addPrompt] and [updatePrompt] write it. *)
Definition written (p : Prompt.t) : Prop :=
  Prompt.category p ≠ [] ∧
  ∃ gs, Prompt.groups p = Some gs ∧ Forall clean gs.

(** A reload would show the collection the manager holds. *)
Definition synced (w : World) : Prop :=
  default [] (storage w) = prompts w.

End Shape.

(* ===================================================================== *)
(** * Facts about the string primitives *)
(* ===================================================================== *)

Module JSFacts.
Import JS Spec.

Lemma str_eqb_eq a b : str_eqb a b = true ↔ a = b.
Proof. unfold str_eqb. apply bool_decide_eq_true. Qed.

Lemma str_eqb_neq a b : str_eqb a b = false ↔ a ≠ b.
Proof. unfold str_eqb. apply bool_decide_eq_false. Qed.

Lemma truthy_true s : truthy s = true ↔ s ≠ [].
Proof. destruct s; simpl; split; congruence. Qed.

Lemma truthy_false s : truthy s = false ↔ s = [].
Proof. destruct s; simpl; split; congruence. Qed.

(** ** [trim] *)

Lemma trimStart_white l s : Forall white l → trimStart (l ++ s) = trimStart s.
Proof.
  induction 1 as [|c l Hc _ IH]; simpl; [done|].
  unfold white in Hc. by rewrite Hc.
Qed.

Lemma trimStart_fixed s :
  (∀ c, head s = Some c → ¬ white c) → trimStart s = s.
Proof.
  destruct s as [|c s]; simpl; [done|]. intros H.
  destruct (isWhiteSpace c) eqn:E; [|done].
  by destruct (H c).
Qed.

Lemma trimStart_split s :
  ∃ l, s = l ++ trimStart s ∧ Forall white l ∧
       (∀ c, head (trimStart s) = Some c → ¬ white c).
Proof.
  induction s as [|c s (l & Hs & Hl & Hh)]; simpl.
  - exists []. repeat split; [constructor | by intros c [=]].
  - destruct (isWhiteSpace c) eqn:E.
    + exists (c :: l). simpl. rewrite <- Hs. repeat split; [|done].
      by constructor.
    + exists []. repeat split; [constructor|].
      intros c' [= <-]. unfold white. congruence.
Qed.

Lemma trimEnd_split s :
  ∃ r, s = trimEnd s ++ r ∧ Forall white r ∧
       (∀ c, last (trimEnd s) = Some c → ¬ white c).
Proof.
  unfold trimEnd.
  destruct (trimStart_split (reverse s)) as (l & Hs & Hl & Hh).
  exists (reverse l). repeat split.
  - rewrite <- reverse_app, <- Hs. by rewrite reverse_involutive.
  - by apply Forall_reverse.
  - intros c. rewrite last_reverse. apply Hh.
Qed.

Lemma trimEnd_white s r : Forall white r → trimEnd (s ++ r) = trimEnd s.
Proof.
  intros Hr. unfold trimEnd. rewrite reverse_app.
  rewrite trimStart_white; [done|]. by apply Forall_reverse.
Qed.

Lemma trimEnd_fixed s :
  (∀ c, last s = Some c → ¬ white c) → trimEnd s = s.
Proof.
  intros H. unfold trimEnd. rewrite trimStart_fixed.
  - apply reverse_involutive.
  - intros c. rewrite head_reverse. apply H.
Qed.

Lemma head_trimEnd s c :
  head s = Some c → ¬ white c → head (trimEnd s) = Some c.
Proof.
  intros Hh Hc. destruct (trimEnd_split s) as (r & Hs & Hr & _).
  destruct (trimEnd s) as [|c' t] eqn:E; simpl in *.
  - subst r. destruct s as [|c0 s]; [done|]. simpl in Hh.
    injection Hh as ->. by apply Forall_cons in Hr as [? _].
  - rewrite Hs in Hh. simpl in Hh. done.
Qed.

(** [trim] removes exactly the surrounding whitespace. *)
Lemma trim_Stripped s : Stripped s (trim s).
Proof.
  unfold trim.
  destruct (trimStart_split s) as (l & Hs & Hl & Hh).
  destruct (trimEnd_split (trimStart s)) as (r & Hs' & Hr & Ht).
  exists l, r. repeat split; [congruence | done | done | | done].
  intros c Hc Hw.
  destruct (trimStart s) as [|c0 u] eqn:E; [done|].
  assert (head (trimEnd (c0 :: u)) = Some c0) as Hc0.
  { apply head_trimEnd; [done|]. by apply Hh. }
  rewrite Hc0 in Hc. injection Hc as <-. by apply (Hh c0).
Qed.

(** ... and nothing else does. *)
Lemma Stripped_trim s t : Stripped s t → t = trim s.
Proof.
  intros (l & r & -> & Hl & Hr & Hh & Ht). unfold trim.
  rewrite trimStart_white by done.
  destruct t as [|c t].
  - simpl. destruct (trimStart_split r) as (l' & Hr' & _ & Hh').
    destruct (trimStart r) as [|c u] eqn:E; [done|].
    exfalso. apply (Hh' c); [done|].
    rewrite Hr' in Hr. apply Forall_app in Hr as [_ Hr].
    by apply Forall_cons in Hr as [? _].
  - rewrite trimStart_fixed.
    + rewrite trimEnd_white by done. by rewrite trimEnd_fixed.
    + simpl. intros c' [= <-]. by apply Hh.
Qed.

(** ** [split] and [join] *)

Lemma join_cons sep p q rest :
  join sep (p :: q :: rest) = p ++ sep :: join sep (q :: rest).
Proof. done. Qed.

Lemma split_from_piece sep acc p :
  sep ∉ p → split_from sep acc p = [reverse acc ++ p].
Proof.
  revert acc. induction p as [|c p IH]; intros acc Hp; simpl.
  - by rewrite app_nil_r.
  - apply not_elem_of_cons in Hp as [Hc Hp].
    destruct (N.eqb_spec c sep) as [->|_]; [done|].
    rewrite IH by done. rewrite reverse_cons, <- app_assoc. done.
Qed.

Lemma split_from_sep sep acc p s :
  sep ∉ p →
  split_from sep acc (p ++ sep :: s) = (reverse acc ++ p) :: split_from sep [] s.
Proof.
  revert acc. induction p as [|c p IH]; intros acc Hp; simpl.
  - rewrite N.eqb_refl. by rewrite app_nil_r.
  - apply not_elem_of_cons in Hp as [Hc Hp].
    destruct (N.eqb_spec c sep) as [->|_]; [done|].
    rewrite IH by done. rewrite reverse_cons, <- app_assoc. done.
Qed.

Lemma split_from_SplitOn sep acc s :
  sep ∉ acc →
  ∃ p ps, split_from sep acc s = p :: ps ∧
          join sep (p :: ps) = reverse acc ++ s ∧
          Forall (λ p, sep ∉ p) (p :: ps).
Proof.
  revert acc. induction s as [|c s IH]; intros acc Hacc; simpl.
  - exists (reverse acc), []. split_and!; [done | by rewrite app_nil_r |].
    constructor; [|constructor]. by rewrite elem_of_reverse.
  - destruct (N.eqb_spec c sep) as [->|Hc].
    + destruct (IH []) as (p & ps & -> & Hj & Hf); [apply not_elem_of_nil|].
      exists (reverse acc), (p :: ps). split_and!; [done | |].
      * pose proof (join_cons sep (reverse acc) p ps) as Hc.
        etrans; [exact Hc|]. by rewrite Hj.
      * constructor; [by rewrite elem_of_reverse | done].
    + destruct (IH (c :: acc)) as (p & ps & -> & Hj & Hf).
      { apply not_elem_of_cons. split; [congruence | done]. }
      exists p, ps. split_and!; [done | | done].
      etrans; [exact Hj|]. by rewrite reverse_cons, <- app_assoc.
Qed.

(** [split] cuts the string at its separators ... *)
Lemma split_SplitOn sep s : SplitOn sep s (split sep s).
Proof.
  unfold split, SplitOn.
  destruct (split_from_SplitOn sep [] s) as (p & ps & -> & Hj & Hf);
    [apply not_elem_of_nil|].
  repeat split; done.
Qed.

(** ... and is the only way to cut it so. *)
Lemma SplitOn_split sep s ps : SplitOn sep s ps → ps = split sep s.
Proof.
  intros (Hne & <- & Hps). destruct ps as [|p rest]; [done|]. clear Hne.
  unfold split. revert p Hps.
  induction rest as [|q rest IH]; intros p Hps;
    apply Forall_cons in Hps as [Hp Hps].
  - simpl. by rewrite split_from_piece.
  - rewrite join_cons, split_from_sep by done. simpl. f_equal. by apply IH.
Qed.

(** ** [includes] *)

Lemma startsWith_true s t : startsWith s t = true ↔ ∃ post, s = t ++ post.
Proof.
  revert s. induction t as [|b t IH]; intros s; simpl.
  - split; [intros _; by exists s | done].
  - destruct s as [|a s].
    + split; [done | by intros [? [=]]].
    + rewrite andb_true_iff, N.eqb_eq, IH. split.
      * intros [-> [post ->]]. by exists post.
      * intros [post [= -> ->]]. eauto.
Qed.

Lemma includes_true s t :
  includes s t = true ↔ ∃ pre post, s = pre ++ t ++ post.
Proof.
  induction s as [|a s IH]; simpl; rewrite orb_true_iff, startsWith_true.
  - split.
    + intros [[post ->]|[=]]. by exists [], post.
    + intros (pre & post & H). left.
      destruct pre; [|done]. by exists post.
  - rewrite IH. split.
    + intros [[post ->]|(pre & post & ->)].
      * by exists [], post.
      * by exists (a :: pre), post.
    + intros ([|a' pre] & post & H).
      * left. by exists post.
      * right. injection H as <- ->. by exists pre, post.
Qed.

(** ** The order of [sort] *)

Lemma compare_refl a : compare a a = Eq.
Proof. induction a as [|x a IH]; simpl; [done|]. by rewrite N.compare_refl. Qed.

Lemma compare_eq a b : compare a b = Eq → a = b.
Proof.
  revert b. induction a as [|x a IH]; intros [|y b]; simpl; try done.
  destruct (N.compare_spec x y) as [->| |]; try done.
  intros H. f_equal. by apply IH.
Qed.

Lemma compare_antisym a b : compare b a = CompOpp (compare a b).
Proof.
  revert b. induction a as [|x a IH]; intros [|y b]; simpl; try done.
  rewrite (N.compare_antisym x y).
  destruct (x ?= y); simpl; [apply IH | done | done].
Qed.

Lemma lt_trans a b c : lt a b → lt b c → lt a c.
Proof.
  unfold lt. revert b c.
  induction a as [|x a IH]; intros [|y b] [|z c]; simpl; try done.
  destruct (N.compare_spec x y) as [->|Hxy|Hxy]; try done;
    destruct (N.compare_spec y z) as [->|Hyz|Hyz]; try done;
    [apply IH | |]; intros _ _.
  - by apply N.compare_lt_iff in Hxy as ->.
  - assert (x < z) as Hxz by (by etrans).
    by apply N.compare_lt_iff in Hxz as ->.
Qed.

Lemma le_lt_eq a b : le a b ↔ lt a b ∨ a = b.
Proof.
  unfold le, lt. split.
  - destruct (compare a b) eqn:E; [|by left|done].
    right. by apply compare_eq.
  - intros [->| ->]; [done|]. by rewrite compare_refl.
Qed.

#[global] Instance le_total : Total le.
Proof.
  intros a b. unfold le. rewrite (compare_antisym a b).
  destruct (compare a b); simpl; [left|left|right]; done.
Qed.

#[global] Instance le_trans : Transitive le.
Proof.
  intros a b c. rewrite !le_lt_eq.
  intros [Hab| ->] [Hbc| ->]; eauto using lt_trans.
Qed.

Lemma lt_irrefl a : ¬ lt a a.
Proof. unfold lt. by rewrite compare_refl. Qed.

Lemma sort_perm l : sort l ≡ₚ l.
Proof. apply merge_sort_Permutation. Qed.

(** Sorting a duplicate-free array leaves it strictly increasing. *)
Lemma sort_strict l : NoDup l → StronglySorted lt (sort l).
Proof.
  intros Hnd.
  assert (NoDup (sort l)) as Hnd' by (by rewrite sort_perm).
  assert (StronglySorted le (sort l)) as Hs
    by (apply StronglySorted_merge_sort; apply _).
  induction Hs as [|x r Hs IH Hx]; [constructor|].
  apply NoDup_cons in Hnd' as [Hxr Hr].
  constructor; [by apply IH|].
  rewrite Forall_forall in Hx |- *. intros y Hy.
  destruct (proj1 (le_lt_eq x y) (Hx y Hy)) as [?| ->]; done.
Qed.

(** ** Sets of strings *)

Lemma arr_includes_true l x : arr_includes l x = true ↔ x ∈ l.
Proof.
  unfold arr_includes. rewrite existsb_exists. split.
  - intros (y & Hy & Heq). apply str_eqb_eq in Heq as ->.
    by apply list_elem_of_In.
  - intros Hx. exists x. split; [by apply list_elem_of_In|].
    by apply str_eqb_eq.
Qed.

Lemma elem_of_set_add x y s : y ∈ set_add x s ↔ y = x ∨ y ∈ s.
Proof.
  unfold set_add. destruct (arr_includes s x) eqn:E.
  - apply arr_includes_true in E. split; [auto|]. by intros [->|?].
  - rewrite elem_of_app, list_elem_of_singleton. tauto.
Qed.

Lemma NoDup_set_add x s : NoDup s → NoDup (set_add x s).
Proof.
  intros Hs. unfold set_add. destruct (arr_includes s x) eqn:E; [done|].
  apply NoDup_app. repeat split; [done| |apply NoDup_singleton].
  intros y Hy ->%list_elem_of_singleton.
  apply arr_includes_true in Hy. congruence.
Qed.

End JSFacts.


(* ===================================================================== *)
(** * Facts about the manager *)
(* ===================================================================== *)

Module PMFacts.
Import JS PM Spec JSFacts.

(** ** What each method does to the world *)

Ltac run :=
  unfold savePrompts, loadPrompts, bindEvents, render, updateFilters, call_ui,
         storage_set, storage_get, set_prompts, get_prompts,
         mret, M_ret, ret, mbind, M_bind, bind;
  simpl.

Lemma addPrompt_run h data w :
  addPrompt h data w =
  let ps := newPrompt h data :: prompts w in
  if storageSetOk h
  then (Normal tt,
        mkWorld ps (currentFilter w) (Some ps) (ui w ++ [Render] ++ [UpdateFilters]))
  else (Throw, mkWorld ps (currentFilter w) (storage w) (ui w)).
Proof.
  unfold addPrompt. run.
  destruct (storageSetOk h); simpl; [|done].
  by rewrite <- app_assoc.
Qed.

Lemma deletePrompt_run h id w :
  deletePrompt h id w =
  let ps := List.filter (λ p, negb (str_eqb (Prompt.id p) id)) (prompts w) in
  if storageSetOk h
  then (Normal tt,
        mkWorld ps (currentFilter w) (Some ps) (ui w ++ [Render] ++ [UpdateFilters]))
  else (Throw, mkWorld ps (currentFilter w) (storage w) (ui w)).
Proof.
  unfold deletePrompt. run.
  destruct (storageSetOk h); simpl; [|done].
  by rewrite <- app_assoc.
Qed.

Lemma updatePrompt_run h id data w :
  updatePrompt h id data w =
  let index := findIndex (λ p, str_eqb (Prompt.id p) id) (prompts w) in
  if (index =? -1)%Z then (Normal tt, w)
  else
    let ps := alter (updatedPrompt h data) (Z.to_nat index) (prompts w) in
    if storageSetOk h
    then (Normal tt,
          mkWorld ps (currentFilter w) (Some ps) (ui w ++ [Render] ++ [UpdateFilters]))
    else (Throw, mkWorld ps (currentFilter w) (storage w) (ui w)).
Proof.
  unfold updatePrompt. run.
  destruct (_ =? _)%Z; [done|].
  destruct (storageSetOk h); simpl; [|done].
  by rewrite <- app_assoc.
Qed.

Lemma loadPrompts_run w :
  loadPrompts w =
  (Normal tt,
   mkWorld (default [] (storage w)) (currentFilter w) (storage w) (ui w)).
Proof. run. by destruct (storage w). Qed.

Lemma prompts_addPrompt h data w :
  prompts (exec (addPrompt h data) w) = newPrompt h data :: prompts w.
Proof.
  unfold exec. rewrite addPrompt_run. simpl. by destruct (storageSetOk h).
Qed.

Lemma prompts_deletePrompt h id w :
  prompts (exec (deletePrompt h id) w) =
  List.filter (λ p, negb (str_eqb (Prompt.id p) id)) (prompts w).
Proof.
  unfold exec. rewrite deletePrompt_run. simpl. by destruct (storageSetOk h).
Qed.

(** ** [findIndex] *)

Lemma findIndex_from_spec {A} (f : A → bool) l i :
  (0 ≤ i)%Z →
  (findIndex_from i f l = (-1)%Z ∧ Forall (λ x, f x = false) l) ∨
  (∃ (k : nat) x,
      findIndex_from i f l = (i + Z.of_nat k)%Z ∧
      l !! k = Some x ∧ f x = true ∧
      ∀ (j : nat) y, (j < k)%nat → l !! j = Some y → f y = false).
Proof.
  revert i. induction l as [|a l IH]; intros i Hi; simpl.
  - left. split; [done | constructor].
  - destruct (f a) eqn:E.
    + right. exists 0%nat, a. split_and!; [lia | done | done |].
      intros j y Hj. lia.
    + destruct (IH (i + 1)%Z) as [[-> Hall]|(k & x & -> & Hk & Hx & Hlt)];
        [lia | |].
      * left. split; [done | by constructor].
      * right. exists (S k), x. split_and!; [lia | done | done |].
        intros [|j] y Hj Hy; simpl in Hy; [congruence|].
        apply (Hlt j); [lia | done].
Qed.

Lemma findIndex_absent id (ps : list Prompt.t) :
  id ∉ Prompt.id <$> ps →
  findIndex (λ p, str_eqb (Prompt.id p) id) ps = (-1)%Z.
Proof.
  intros Hid. unfold findIndex.
  destruct (findIndex_from_spec (λ p, str_eqb (Prompt.id p) id) ps 0)
    as [[? _]|(k & x & _ & Hk & Hx & _)]; [lia | done |].
  destruct Hid. apply str_eqb_eq in Hx as <-.
  apply list_elem_of_fmap. exists x. split; [done|].
  by eapply list_elem_of_lookup_2.
Qed.

Lemma findIndex_present id (ps : list Prompt.t) :
  id ∈ Prompt.id <$> ps →
  ∃ (i : nat) old,
    findIndex (λ p, str_eqb (Prompt.id p) id) ps = Z.of_nat i ∧
    ps !! i = Some old ∧ Prompt.id old = id ∧
    ∀ (j : nat) q, (j < i)%nat → ps !! j = Some q → Prompt.id q ≠ id.
Proof.
  intros (p & -> & Hp)%list_elem_of_fmap. unfold findIndex.
  destruct (findIndex_from_spec (λ q, str_eqb (Prompt.id q) (Prompt.id p)) ps 0)
    as [[_ Hall]|(k & x & -> & Hk & Hx & Hlt)]; [lia | |].
  - rewrite Forall_forall in Hall. specialize (Hall p Hp). simpl in Hall.
    apply str_eqb_neq in Hall. done.
  - exists k, x. split_and!; [lia | done | by apply str_eqb_eq |].
    intros j q Hj Hq. apply str_eqb_neq. by apply (Hlt j).
Qed.

(** ** [filter] on ids *)

Lemma filter_ids_absent id (ps : list Prompt.t) :
  id ∉ Prompt.id <$> ps →
  List.filter (λ p, negb (str_eqb (Prompt.id p) id)) ps = ps.
Proof.
  induction ps as [|q ps IH]; simpl; [done|].
  intros [Hq Hps]%not_elem_of_cons.
  destruct (str_eqb (Prompt.id q) id) eqn:E; simpl.
  - apply str_eqb_eq in E. congruence.
  - by rewrite IH.
Qed.

Lemma filter_ids_present id (ps : list Prompt.t) :
  unique_ids ps → id ∈ Prompt.id <$> ps →
  ∃ l1 p l2, ps = l1 ++ p :: l2 ∧ Prompt.id p = id ∧
             List.filter (λ p, negb (str_eqb (Prompt.id p) id)) ps = l1 ++ l2.
Proof.
  unfold unique_ids.
  induction ps as [|q ps IH]; simpl.
  - intros _ Hid. by apply elem_of_nil in Hid.
  - intros [Hq Hnd]%NoDup_cons [->|Hid]%elem_of_cons.
    + exists [], q, ps. unfold str_eqb. rewrite bool_decide_eq_true_2 by done.
      simpl. split_and!; [done | done |]. by apply filter_ids_absent.
    + destruct (str_eqb (Prompt.id q) id) eqn:E; simpl.
      { apply str_eqb_eq in E. congruence. }
      destruct (IH Hnd Hid) as (l1 & p & l2 & -> & Hp & ->).
      by exists (q :: l1), p, l2.
Qed.

(** ** Groups derived from the form *)

Lemma filter_truthy (l : list jsstring) :
  List.filter truthy l = filter (λ t, t ≠ []) l.
Proof.
  induction l as [|t l IH]; [done|].
  rewrite filter_cons. simpl. rewrite IH.
  destruct (decide (t ≠ [])) as [H|H], t; simpl; done.
Qed.

Lemma Forall2_Stripped ps ts : Forall2 Stripped ps ts ↔ ts = map trim ps.
Proof.
  split.
  - induction 1 as [|s t ps ts Hst _ IH]; simpl; [done|].
    f_equal; [by apply Stripped_trim | done].
  - intros ->. induction ps; simpl; constructor; [apply trim_Stripped | done].
Qed.

(** The specification's description of the groups has exactly one
    solution, the array the code computes. *)
Lemma derived_groups_parseGroups input gs :
  derived_groups input gs ↔ gs = parseGroups input.
Proof.
  destruct input as [[|c s]|]; simpl; [done | | done].
  rewrite filter_truthy. split.
  - intros (ps & ts & Hps & Hts & ->).
    apply SplitOn_split in Hps as ->. by apply Forall2_Stripped in Hts as ->.
  - intros ->. exists (split comma (c :: s)), (map trim (split comma (c :: s))).
    split_and!; [apply split_SplitOn | by apply Forall2_Stripped | done].
Qed.

(** ** The filter callback *)

Lemma Selects_filter {A} (P : A → Prop) (f : A → bool) l :
  (∀ x, f x = true ↔ P x) → Selects P l (List.filter f l).
Proof.
  intros Hf. induction l as [|x l IH]; simpl; [constructor|].
  destruct (f x) eqn:E.
  - constructor; [by apply Hf | done].
  - constructor; [|done]. rewrite <- Hf. congruence.
Qed.

Lemma Selects_functional {A} (P : A → Prop) l r1 r2 :
  Selects P l r1 → Selects P l r2 → r1 = r2.
Proof.
  intros H1. revert r2.
  induction H1 as [|x l r Hx _ IH|x l r Hx _ IH]; intros r2 H2;
    inversion H2; subst; try done.
  - f_equal. by apply IH.
  - by apply IH.
Qed.

Section Filtering.
Variable toLowerCase : jsstring → jsstring.

Lemma includes_matches_ci text needle :
  includes (toLowerCase text) (toLowerCase needle) = true ↔
  matches_ci toLowerCase text needle.
Proof. apply includes_true. Qed.

Lemma search_ok_true f p :
  negb (truthy (Filter.search f) &&
        (negb (includes (toLowerCase (Prompt.title p))
                        (toLowerCase (Filter.search f))) &&
         negb (includes (toLowerCase (Prompt.content p))
                        (toLowerCase (Filter.search f))))) = true ↔
  search_ok toLowerCase f p.
Proof.
  unfold search_ok. rewrite <- !includes_matches_ci.
  destruct (Filter.search f) as [|c s]; simpl; [intuition congruence|].
  destruct (includes _ _), (includes _ _); simpl; intuition congruence.
Qed.

Lemma category_ok_true f p :
  negb (truthy (Filter.category f) &&
        negb (str_eqb (Prompt.category p) (Filter.category f))) = true ↔
  category_ok f p.
Proof.
  unfold category_ok.
  destruct (Filter.category f) as [|c s]; simpl; [intuition congruence|].
  rewrite negb_involutive, str_eqb_eq. intuition congruence.
Qed.

Lemma group_ok_true f p :
  negb (truthy (Filter.group f) &&
        match Prompt.groups p with
        | None => true
        | Some gs => negb (arr_includes gs (Filter.group f))
        end) = true ↔
  group_ok f p.
Proof.
  unfold group_ok.
  destruct (Filter.group f) as [|c s]; simpl; [intuition congruence|].
  destruct (Prompt.groups p) as [gs|]; simpl.
  - rewrite negb_involutive, arr_includes_true. split.
    + intros Hin. right. by exists gs.
    + by intros [?|(gs' & [= <-] & ?)].
  - split; [done | by intros [?|(? & ? & ?)]].
Qed.

(** The callback keeps a prompt exactly when the three predicates of
    the specification hold of it. *)
Lemma keepPrompt_passes f p :
  keepPrompt toLowerCase f p = true ↔ passes toLowerCase f p.
Proof.
  unfold passes.
  rewrite <- search_ok_true, <- category_ok_true, <- group_ok_true.
  unfold keepPrompt.
  repeat match goal with
         | |- context [if ?b then _ else _] => destruct b; simpl
         end; intuition congruence.
Qed.
End Filtering.

(** ** The set built by [getCategories] *)

Lemma categories_fold (ps : list Prompt.t) (acc : list jsstring) :
  let r :=
    fold_left
      (fun categories prompt =>
         if truthy (Prompt.category prompt)
         then set_add (Prompt.category prompt) categories
         else categories)
      ps acc in
  (NoDup acc → NoDup r) ∧
  ∀ c, c ∈ r ↔ c ∈ acc ∨ (c ≠ [] ∧ ∃ p, p ∈ ps ∧ Prompt.category p = c).
Proof.
  revert acc. induction ps as [|q ps IH]; intros acc; simpl.
  - split; [done|]. intros c. split; [by left|].
    intros [?|(_ & p & Hp & _)]; [done | by apply elem_of_nil in Hp].
  - destruct (IH (if truthy (Prompt.category q)
                  then set_add (Prompt.category q) acc else acc))
      as [Hnd Hin].
    split.
    + intros Hacc. apply Hnd.
      destruct (truthy (Prompt.category q)); [by apply NoDup_set_add | done].
    + intros c. rewrite Hin. clear Hnd Hin IH.
      destruct (truthy (Prompt.category q)) eqn:E.
      * apply truthy_true in E. rewrite elem_of_set_add. split.
        -- intros [[->|?]|(Hc & p & Hp & Hpc)]; [right | by left | right].
           ++ split; [done|]. exists q. split; [apply list_elem_of_here | done].
           ++ split; [done|]. exists p. split; [by apply list_elem_of_further | done].
        -- intros [?|(Hc & p & [->|Hp]%elem_of_cons & Hpc)];
             [by left; right | by left; left | right].
           split; [done|]. by exists p.
      * apply truthy_false in E. split.
        -- intros [?|(Hc & p & Hp & Hpc)]; [by left | right].
           split; [done|]. exists p. split; [by apply list_elem_of_further | done].
        -- intros [?|(Hc & p & [->|Hp]%elem_of_cons & Hpc)];
             [by left | congruence | right].
           split; [done|]. by exists p.
Qed.

End PMFacts.

(* ===================================================================== *)
(** * The properties of the specification *)
(* ===================================================================== *)

Module Claims.
Import JS PM Spec JSFacts PMFacts.

(** Decide a membership statement about a concrete collection. *)
Ltac by_computation := apply (bool_decide_unpack _); vm_compute; exact I.

(** ** add *)

(** C1, as stated, does not hold: for the form
    [{title:"A", content:"hello world", category:"", groups:"x, y, "}]
    the category is falsy, yet the prompt that [addPrompt] puts in the
    collection does not have the category ["uncategorized"]. *)
Lemma add_category_not_uncategorized :
  truthy_opt (Data.category Sample.form_a) = false ∧
  ∃ p, prompts (exec (addPrompt Sample.host1 Sample.form_a) Sample.fresh)
         = [p] ∧
       Prompt.category p ≠ Spec.uncategorized.
Proof.
  split; [done|]. eexists. split; [reflexivity|]. by vm_compute.
Qed.

(** C1 (amended): for every [addPrompt(data)] call where [data.category]
    is falsy (absent or the empty string), the prompt placed in the
    collection has the category [defaultCategory], the three code units
    U+672A U+5206 U+7C7B that the code uses as its sentinel. *)
Theorem add_category_default h data w :
  truthy_opt (Data.category data) = false →
  ∃ p, prompts (exec (addPrompt h data) w) = p :: prompts w ∧
       Prompt.category p = defaultCategory.
Proof.
  intros Hfalsy. exists (newPrompt h data).
  split; [apply prompts_addPrompt|]. simpl.
  destruct (Data.category data) as [c|]; simpl in *; [|done].
  by rewrite Hfalsy.
Qed.

Lemma add_category_default_witness :
  truthy_opt (Data.category Sample.form_a) = false ∧
  ∃ p, prompts (exec (addPrompt Sample.host1 Sample.form_a) Sample.fresh)
         = p :: prompts Sample.fresh ∧
       Prompt.category p = defaultCategory.
Proof.
  split; [reflexivity|].
  apply (add_category_default Sample.host1 Sample.form_a Sample.fresh).
  reflexivity.
Defined.

(** C5: for every [addPrompt(data)] call, the groups of the new prompt
    are the pieces of [data.groups] between its commas, each trimmed of
    the whitespace around it, without the empty ones (and none at all
    when [data.groups] is falsy); the input ["x, y, "] gives
    [["x"; "y"]]. *)
Theorem add_groups :
  (∀ h data w,
      ∃ p, prompts (exec (addPrompt h data) w) = p :: prompts w ∧
           ∀ gs, Prompt.groups p = Some gs ↔
                 derived_groups (Data.groups data) gs) ∧
  (∀ h w,
      ∃ p, prompts (exec (addPrompt h Sample.form_a) w) = p :: prompts w ∧
           Data.groups Sample.form_a = Some (js "x, y, ") ∧
           Prompt.groups p = Some [js "x"; js "y"]).
Proof.
  split.
  - intros h data w. exists (newPrompt h data).
    split; [apply prompts_addPrompt|]. intros gs.
    rewrite derived_groups_parseGroups. simpl. split; congruence.
  - intros h w. exists (newPrompt h Sample.form_a).
    split; [apply prompts_addPrompt | done].
Qed.

(** C10: for every [addPrompt(data)] call the new prompt has
    [createdAt] equal to [updatedAt], both being the time read at the
    start of the call. *)
Theorem add_timestamps h data w :
  ∃ p, prompts (exec (addPrompt h data) w) = p :: prompts w ∧
       Prompt.createdAt p = Prompt.updatedAt p ∧
       Prompt.createdAt p = isoNow h.
Proof.
  exists (newPrompt h data). split; [apply prompts_addPrompt | done].
Qed.

(** C6: every [addPrompt] puts the new prompt in front of the
    collection, so after any run of adds, from any collection, the
    prompts added stand before the old ones, the most recent first. *)
Theorem add_newest_first :
  (∀ h data w,
      prompts (exec (addPrompt h data) w) = newPrompt h data :: prompts w) ∧
  (∀ calls w,
      prompts (addAll calls w) =
      reverse ((λ c, newPrompt c.1 c.2) <$> calls) ++ prompts w).
Proof.
  split; [apply prompts_addPrompt|].
  induction calls as [|[h data] calls IH]; intros w; simpl; [done|].
  rewrite IH, prompts_addPrompt, reverse_cons, <- app_assoc. done.
Qed.

(** ** update *)

(** C3: when no prompt of the collection has the given id,
    [updatePrompt(id, data)] returns normally and leaves the world as it
    was: the collection, the stored copy and the panel. *)
Theorem update_absent h id data w :
  id ∉ Prompt.id <$> prompts w →
  updatePrompt h id data w = (Normal tt, w).
Proof.
  intros Hid. rewrite updatePrompt_run. simpl.
  by rewrite findIndex_absent.
Qed.

Lemma update_absent_witness :
  (js "p9" ∉ Prompt.id <$> prompts Sample.two) ∧
  updatePrompt Sample.host_full (js "p9") Sample.form_b Sample.two
    = (Normal tt, Sample.two).
Proof.
  assert (js "p9" ∉ Prompt.id <$> prompts Sample.two) as H
    by by_computation.
  split; [exact H|].
  exact (update_absent Sample.host_full (js "p9") Sample.form_b Sample.two H).
Defined.

(** C4: when the collection holds a prompt with the given id,
    [updatePrompt(id, data)] rewrites the first such prompt: its title and
    content become those of [data]; its category becomes [data.category],
    or the sentinel U+672A U+5206 U+7C7B when that is absent or empty; its
    groups become the pieces of [data.groups] between commas, trimmed,
    without the empty ones; [id] and [createdAt] stay, [updatedAt] becomes
    the current time; every other position of the collection keeps its
    prompt. *)
Theorem update_present h id data w :
  id ∈ Prompt.id <$> prompts w →
  ∃ (i : nat) old new,
    prompts w !! i = Some old ∧ Prompt.id old = id ∧
    (∀ (j : nat) q, (j < i)%nat → prompts w !! j = Some q → Prompt.id q ≠ id) ∧
    let ps' := prompts (exec (updatePrompt h id data) w) in
    ps' !! i = Some new ∧
    Prompt.title new = Data.title data ∧
    Prompt.content new = Data.content data ∧
    Prompt.category new =
      match Data.category data with
      | Some (c :: s) => c :: s
      | Some [] | None => [0x672A; 0x5206; 0x7C7B]
      end ∧
    (∀ gs, Prompt.groups new = Some gs ↔
           derived_groups (Data.groups data) gs) ∧
    Prompt.id new = Prompt.id old ∧
    Prompt.createdAt new = Prompt.createdAt old ∧
    Prompt.updatedAt new = isoNow h ∧
    length ps' = length (prompts w) ∧
    ∀ j : nat, j ≠ i → ps' !! j = prompts w !! j.
Proof.
  intros Hid.
  destruct (findIndex_present id (prompts w) Hid) as (i & old & Hi & Hold & Hidold & Hfirst).
  exists i, old, (updatedPrompt h data old).
  split_and!; [done | done | done |]. simpl.
  assert (prompts (exec (updatePrompt h id data) w)
          = alter (updatedPrompt h data) i (prompts w)) as ->.
  { unfold exec. rewrite updatePrompt_run. simpl. rewrite Hi.
    destruct (Z.eqb_spec (Z.of_nat i) (-1)) as [?|_]; [lia|].
    rewrite Nat2Z.id. by destruct (storageSetOk h). }
  split_and!; try done.
  - by rewrite list_lookup_alter_eq, Hold.
  - by destruct (Data.category data) as [[|c s]|].
  - intros gs. rewrite derived_groups_parseGroups. split; congruence.
  - apply length_alter.
  - intros j Hj. by apply list_lookup_alter_ne.
Qed.

Lemma update_present_witness :
  (js "p2" ∈ Prompt.id <$> prompts Sample.two) ∧
  ∃ (i : nat) old new,
    prompts Sample.two !! i = Some old ∧ Prompt.id old = js "p2" ∧
    (∀ (j : nat) q, (j < i)%nat → prompts Sample.two !! j = Some q →
                    Prompt.id q ≠ js "p2") ∧
    let ps' := prompts (exec (updatePrompt Sample.host2 (js "p2") Sample.form_b)
                             Sample.two) in
    ps' !! i = Some new ∧
    Prompt.title new = Data.title Sample.form_b ∧
    Prompt.content new = Data.content Sample.form_b ∧
    Prompt.category new =
      match Data.category Sample.form_b with
      | Some (c :: s) => c :: s
      | Some [] | None => [0x672A; 0x5206; 0x7C7B]
      end ∧
    (∀ gs, Prompt.groups new = Some gs ↔
           derived_groups (Data.groups Sample.form_b) gs) ∧
    Prompt.id new = Prompt.id old ∧
    Prompt.createdAt new = Prompt.createdAt old ∧
    Prompt.updatedAt new = isoNow Sample.host2 ∧
    length ps' = length (prompts Sample.two) ∧
    ∀ j : nat, j ≠ i → ps' !! j = prompts Sample.two !! j.
Proof.
  assert (js "p2" ∈ Prompt.id <$> prompts Sample.two) as H
    by by_computation.
  split; [exact H|].
  exact (update_present Sample.host2 (js "p2") Sample.form_b Sample.two H).
Defined.

(** ** delete *)

(** C2, as stated, does not hold for every collection: in a collection
    where two prompts carry the id ["p1"], [deletePrompt("p1")] removes
    both, and the size drops from 3 to 1. *)
Lemma delete_twins_removes_two :
  (js "p1" ∈ Prompt.id <$> prompts Sample.twins) ∧
  length (prompts Sample.twins) = 3%nat ∧
  length (prompts (exec (deletePrompt Sample.host1 (js "p1")) Sample.twins))
    = 1%nat ∧
  ¬ (length (prompts Sample.twins)
     ≤ S (length (prompts (exec (deletePrompt Sample.host1 (js "p1"))
                                Sample.twins))))%nat.
Proof.
  split_and!; [by_computation | done | done |].
  vm_compute. lia.
Qed.

(** C2 (amended): for every collection whose ids are pairwise distinct
    and every id, [deletePrompt(id)] removes exactly one entry, the one
    with that id, when some prompt of the collection has that id, and
    no entry otherwise; the size decreases by at most 1. *)
Theorem delete_unique_ids h id w :
  unique_ids (prompts w) →
  let ps := prompts w in
  let ps' := prompts (exec (deletePrompt h id) w) in
  (id ∈ Prompt.id <$> ps →
     ∃ l1 p l2, ps = l1 ++ p :: l2 ∧ Prompt.id p = id ∧ ps' = l1 ++ l2 ∧
                length ps = S (length ps')) ∧
  (id ∉ Prompt.id <$> ps → ps' = ps) ∧
  (length ps' ≤ length ps ≤ S (length ps'))%nat.
Proof.
  intros Huniq ps ps'. subst ps ps'. rewrite prompts_deletePrompt.
  assert (id ∈ Prompt.id <$> prompts w →
          ∃ l1 p l2, prompts w = l1 ++ p :: l2 ∧ Prompt.id p = id ∧
            List.filter (λ p, negb (str_eqb (Prompt.id p) id)) (prompts w)
              = l1 ++ l2 ∧
            length (prompts w)
              = S (length (List.filter (λ p, negb (str_eqb (Prompt.id p) id))
                                       (prompts w)))) as Hin.
  { intros Hid.
    destruct (filter_ids_present id (prompts w) Huniq Hid)
      as (l1 & p & l2 & Hps & Hp & Hf).
    exists l1, p, l2. split_and!; [done | done | done |].
    rewrite Hf, Hps, !length_app. simpl. lia. }
  split_and!; [done | apply filter_ids_absent | |].
  - destruct (decide (id ∈ Prompt.id <$> prompts w)) as [Hid|Hid].
    + destruct (Hin Hid) as (l1 & p & l2 & _ & _ & _ & Hlen). lia.
    + by rewrite filter_ids_absent.
  - destruct (decide (id ∈ Prompt.id <$> prompts w)) as [Hid|Hid].
    + destruct (Hin Hid) as (l1 & p & l2 & _ & _ & _ & Hlen). lia.
    + rewrite filter_ids_absent by done. lia.
Qed.

Lemma delete_unique_ids_witness :
  unique_ids (prompts Sample.two) ∧
  let ps := prompts Sample.two in
  let ps' := prompts (exec (deletePrompt Sample.host1 (js "p1")) Sample.two) in
  (js "p1" ∈ Prompt.id <$> ps →
     ∃ l1 p l2, ps = l1 ++ p :: l2 ∧ Prompt.id p = js "p1" ∧ ps' = l1 ++ l2 ∧
                length ps = S (length ps')) ∧
  (js "p1" ∉ Prompt.id <$> ps → ps' = ps) ∧
  (length ps' ≤ length ps ≤ S (length ps'))%nat.
Proof.
  assert (unique_ids (prompts Sample.two)) as H by by_computation.
  split; [exact H|].
  exact (delete_unique_ids Sample.host1 (js "p1") Sample.two H).
Defined.

(** ** load *)

(** C9: once [addPrompt(X)] has completed, [loadPrompts()], run by the
    same manager or by a new one over the same storage area, yields a
    collection that contains the prompt created from [X], the very
    record that [addPrompt] put in the collection, in front of the
    prompts that were there before. *)
Theorem add_then_load h data w :
  completion (addPrompt h data) w = Normal tt →
  let w1 := exec (addPrompt h data) w in
  ∀ ps0 f0 u0,
    let reloaded := mkWorld ps0 f0 (storage w1) u0 in
    completion loadPrompts reloaded = Normal tt ∧
    prompts (exec loadPrompts reloaded) = prompts w1 ∧
    prompts (exec loadPrompts reloaded) = newPrompt h data :: prompts w ∧
    newPrompt h data ∈ prompts (exec loadPrompts reloaded).
Proof.
  intros Hdone w1 ps0 f0 u0 reloaded. subst w1 reloaded.
  unfold completion, exec in *. rewrite loadPrompts_run.
  rewrite addPrompt_run in *. cbv zeta in *.
  destruct (storageSetOk h); [|done]. cbn.
  split_and!; [done | done | done | apply list_elem_of_here].
Qed.

Lemma add_then_load_witness :
  completion (addPrompt Sample.host1 Sample.form_a) Sample.two = Normal tt ∧
  let w1 := exec (addPrompt Sample.host1 Sample.form_a) Sample.two in
  ∀ ps0 f0 u0,
    let reloaded := mkWorld ps0 f0 (storage w1) u0 in
    completion loadPrompts reloaded = Normal tt ∧
    prompts (exec loadPrompts reloaded) = prompts w1 ∧
    prompts (exec loadPrompts reloaded)
      = newPrompt Sample.host1 Sample.form_a :: prompts Sample.two ∧
    newPrompt Sample.host1 Sample.form_a ∈ prompts (exec loadPrompts reloaded).
Proof.
  split; [reflexivity|].
  apply (add_then_load Sample.host1 Sample.form_a Sample.two).
  reflexivity.
Defined.

(** ** queries *)

(** C7: for every collection and filter state, [getFilteredPrompts()]
    is the collection restricted, in its order, to the prompts for
    which the three predicates hold together: search empty or a
    case-insensitive substring match in title or content, category
    empty or equal to the prompt's, group empty or among the prompt's
    groups.  With the three filter fields empty it is the whole
    collection. *)
Theorem filtered_prompts (toLowerCase : jsstring → jsstring) :
  (∀ w, Selects (passes toLowerCase (currentFilter w))
                (prompts w) (getFilteredPrompts toLowerCase w)) ∧
  (∀ ps st u,
      getFilteredPrompts toLowerCase (mkWorld ps Filter.empty st u) = ps).
Proof.
  split.
  - intros w. unfold getFilteredPrompts.
    apply Selects_filter, keepPrompt_passes.
  - intros ps st u. unfold getFilteredPrompts. simpl.
    induction ps as [|p ps IH]; simpl; [done|]. by rewrite IH.
Qed.

(** C8: for every collection and every filter state, [getCategories()]
    is strictly increasing in the order of [sort] (so sorted and without
    duplicates), holds exactly the non-empty categories of the prompts
    of the whole collection, and is the same whatever the filter. *)
Theorem categories_sorted_distinct w :
  let cs := getCategories w in
  StronglySorted lt cs ∧
  NoDup cs ∧
  (∀ c, c ∈ cs ↔ c ≠ [] ∧ ∃ p, p ∈ prompts w ∧ Prompt.category p = c) ∧
  (∀ f st u, getCategories (mkWorld (prompts w) f st u) = cs).
Proof.
  unfold getCategories.
  destruct (categories_fold (prompts w) []) as [Hnd Hin]. simpl in Hnd, Hin.
  specialize (Hnd (NoDup_nil_2)).
  split_and!.
  - by apply sort_strict.
  - by rewrite sort_perm.
  - intros c. rewrite sort_perm, Hin. split.
    + intros [Hc|?]; [by apply elem_of_nil in Hc | done].
    + by right.
  - done.
Qed.

End Claims.

(* ===================================================================== *)
(** * The manager at work *)
(* ===================================================================== *)

Module Examples.
Import JS PM.

Example split_commas :
  split comma (js "x, y, ") = [js "x"; js " y"; js " "].
Proof. reflexivity. Qed.

Example trim_both_ends : trim (js "  a b  ") = js "a b".
Proof. reflexivity. Qed.

Example sort_code_units :
  sort [js "b"; js "ab"; js "a"; js "B"] = [js "B"; js "a"; js "ab"; js "b"].
Proof. reflexivity. Qed.

(** The form of the specification's example, added by a new manager. *)
Example add_form_a :
  addPrompt Sample.host1 Sample.form_a Sample.fresh =
  (Normal tt,
   let p := Prompt.mk (js "lvo3k2a0x1") (js "A") (js "hello world")
                      defaultCategory (Some [js "x"; js "y"])
                      (js "2024-05-01T10:00:00.000Z")
                      (js "2024-05-01T10:00:00.000Z") in
   mkWorld [p] Filter.empty (Some [p]) [Render; UpdateFilters]).
Proof. reflexivity. Qed.

(** When the storage write is rejected the method throws after the
    collection has changed: the stored copy and the panel stay behind. *)
Example add_storage_rejects :
  addPrompt Sample.host_full Sample.form_b Sample.two =
  (Throw,
   mkWorld (newPrompt Sample.host_full Sample.form_b :: prompts Sample.two)
           Filter.empty (storage Sample.two) []).
Proof. reflexivity. Qed.

(** Reopening the panel after an add: a new manager, then [init]. *)
Example reopen_after_add :
  prompts (exec init (constructed
                        (storage (exec (addPrompt Sample.host1 Sample.form_a)
                                       Sample.two)))) =
  [newPrompt Sample.host1 Sample.form_a; Sample.p_work; Sample.p_life].
Proof. reflexivity. Qed.

(** Prompts of categories "work" and "life", filter category "work". *)
Example filter_by_category :
  getFilteredPrompts asciiLower
    (mkWorld [Sample.p_work; Sample.p_life] (Filter.mk [] (js "work") [])
             None []) =
  [Sample.p_work].
Proof. reflexivity. Qed.

Example filter_by_search_ignores_case :
  getFilteredPrompts asciiLower
    (mkWorld [Sample.p_work; Sample.p_life] (Filter.mk (js "MILK") [] [])
             None []) =
  [Sample.p_life].
Proof. reflexivity. Qed.

(** A prompt without [groups] never passes a group filter. *)
Example filter_by_group :
  getFilteredPrompts asciiLower
    (mkWorld [Sample.p_work; Sample.p_life] (Filter.mk [] [] (js "team"))
             None []) =
  [Sample.p_work].
Proof. reflexivity. Qed.

Example categories_of_twins :
  getCategories Sample.twins = [js "life"; js "work"].
Proof. reflexivity. Qed.

Example groups_of_twins :
  getGroups Sample.twins = [js "dev"; js "team"].
Proof. reflexivity. Qed.

Example update_second :
  prompts (exec (updatePrompt Sample.host2 (js "p2") Sample.form_b) Sample.two) =
  [Sample.p_work;
   Prompt.mk (js "p2") (js "B") (js "Write TESTS") (js "work") (Some [js "dev"])
             (js "2024-04-02T00:00:00.000Z") (js "2024-05-02T08:30:00.000Z")].
Proof. reflexivity. Qed.

End Examples.

(* ===================================================================== *)
(** * Further properties of the script *)
(* ===================================================================== *)

Module Extras.
Import JS PM Spec JSFacts PMFacts Lang Calls Panel Text Shape.

Ltac by_evaluation := apply (bool_decide_unpack _); vm_compute; exact I.

(** ** Group labels *)

Lemma groups_inner_fold (gs acc : list jsstring) :
  let r := fold_left (fun groups group => set_add group groups) gs acc in
  (NoDup acc → NoDup r) ∧ ∀ g, g ∈ r ↔ g ∈ acc ∨ g ∈ gs.
Proof.
  revert acc. induction gs as [|x gs IH]; intros acc; simpl.
  - split; [done|]. intros g. rewrite elem_of_nil. tauto.
  - destruct (IH (set_add x acc)) as [Hnd Hin]. split.
    + intros Hacc. by apply Hnd, NoDup_set_add.
    + intros g. rewrite Hin, elem_of_set_add, elem_of_cons. tauto.
Qed.

Lemma groups_fold (ps : list Prompt.t) (acc : list jsstring) :
  let r :=
    fold_left
      (fun groups prompt =>
         match Prompt.groups prompt with
         | Some gs => fold_left (fun groups group => set_add group groups) gs groups
         | None => groups
         end)
      ps acc in
  (NoDup acc → NoDup r) ∧
  ∀ g, g ∈ r ↔ g ∈ acc ∨ ∃ p l, p ∈ ps ∧ Prompt.groups p = Some l ∧ g ∈ l.
Proof.
  revert acc. induction ps as [|q ps IH]; intros acc; simpl.
  - split; [done|]. intros g. split; [by left|].
    intros [?|(p & l & Hp & _)]; [done | by apply elem_of_nil in Hp].
  - destruct (Prompt.groups q) as [gs|] eqn:E.
    + destruct (IH (fold_left (fun groups group => set_add group groups) gs acc))
        as [Hnd Hin].
      destruct (groups_inner_fold gs acc) as [Hnd' Hin']. simpl in Hnd', Hin'.
      split; [by intros; apply Hnd, Hnd'|].
      intros g. rewrite Hin, Hin'. split.
      * intros [[?|Hg]|(p & l & Hp & Hl & Hg)]; [by left | right | right].
        -- exists q, gs. split_and!; [apply list_elem_of_here | done | done].
        -- exists p, l. split_and!; [by apply list_elem_of_further | done | done].
      * intros [?|(p & l & [->|Hp]%elem_of_cons & Hl & Hg)];
          [by left; left | left; right | right].
        -- congruence.
        -- by exists p, l.
    + destruct (IH acc) as [Hnd Hin]. split; [done|].
      intros g. rewrite Hin. split.
      * intros [?|(p & l & Hp & Hl & Hg)]; [by left | right].
        exists p, l. split_and!; [by apply list_elem_of_further | done | done].
      * intros [?|(p & l & [->|Hp]%elem_of_cons & Hl & Hg)];
          [by left | congruence | right].
        by exists p, l.
Qed.

(** X1: [getGroups()] is strictly increasing in the order of [sort] and
    holds exactly the labels found in the [groups] of some prompt of the
    whole collection (prompts without [groups] contribute nothing); the
    filter is not read. *)
Theorem groups_sorted_distinct w :
  let gs := getGroups w in
  StronglySorted lt gs ∧
  NoDup gs ∧
  (∀ g, g ∈ gs ↔ ∃ p l, p ∈ prompts w ∧ Prompt.groups p = Some l ∧ g ∈ l) ∧
  (∀ f st u, getGroups (mkWorld (prompts w) f st u) = gs).
Proof.
  unfold getGroups.
  destruct (groups_fold (prompts w) []) as [Hnd Hin]. simpl in Hnd, Hin.
  specialize (Hnd (NoDup_nil_2)).
  split_and!.
  - by apply sort_strict.
  - by rewrite sort_perm.
  - intros g. rewrite sort_perm, Hin. split.
    + intros [Hg|?]; [by apply elem_of_nil in Hg | done].
    + by right.
  - done.
Qed.

(** ** Filtering by a listed category or label *)

Lemma elem_of_List_filter {A} (f : A → bool) l x :
  x ∈ List.filter f l ↔ x ∈ l ∧ f x = true.
Proof. rewrite !list_elem_of_In. apply filter_In. Qed.

Lemma elem_of_getFilteredPrompts toLowerCase w p :
  p ∈ getFilteredPrompts toLowerCase w ↔
  p ∈ prompts w ∧ passes toLowerCase (currentFilter w) p.
Proof.
  unfold getFilteredPrompts.
  by rewrite elem_of_List_filter, keepPrompt_passes.
Qed.

Lemma not_nil_elem_of {A} (l : list A) x : x ∈ l → l ≠ [].
Proof. intros Hx ->. by apply elem_of_nil in Hx. Qed.

(** X2: when the handler of the category control receives a value that
    is one of the categories [getCategories()] returns, and the other two
    filters are unset, the filtered list is not empty and holds exactly
    the prompts of that category.  (The handler is given the category
    itself; the markup of the options, which [updateFilters] builds, and
    the value an option delivers are not part of the statement.) *)
Theorem listed_category_shows_prompts toLowerCase w c :
  Filter.search (currentFilter w) = [] →
  Filter.group (currentFilter w) = [] →
  c ∈ getCategories w →
  let shown := getFilteredPrompts toLowerCase (exec (onCategoryChange c) w) in
  shown ≠ [] ∧
  ∀ p, p ∈ shown ↔ p ∈ prompts w ∧ Prompt.category p = c.
Proof.
  intros Hs Hg Hc shown.
  unfold getCategories in Hc. rewrite sort_perm in Hc.
  destruct (categories_fold (prompts w) []) as [_ Hin]. simpl in Hin.
  apply Hin in Hc as [Hc|(Hne & q & Hq & Hqc)]; [by apply elem_of_nil in Hc|].
  assert (∀ p, p ∈ shown ↔ p ∈ prompts w ∧ Prompt.category p = c) as Hshown.
  { intros p. subst shown. rewrite elem_of_getFilteredPrompts. simpl.
    unfold passes, search_ok, category_ok, group_ok. simpl.
    rewrite Hs, Hg. intuition. }
  split; [|done].
  apply (not_nil_elem_of _ q). by apply Hshown.
Qed.

(** X3: when the handler of the group control receives a value that is
    one of the labels [getGroups()] returns, and the other two filters are
    unset, the filtered list is not empty; for a non-empty label it holds
    exactly the prompts carrying it.  (The handler is given the label
    itself; the markup of the options and the value an option delivers
    are not part of the statement.) *)
Theorem listed_group_shows_prompts toLowerCase w g :
  Filter.search (currentFilter w) = [] →
  Filter.category (currentFilter w) = [] →
  g ∈ getGroups w →
  let shown := getFilteredPrompts toLowerCase (exec (onGroupChange g) w) in
  shown ≠ [] ∧
  (g ≠ [] →
   ∀ p, p ∈ shown ↔ p ∈ prompts w ∧ ∃ l, Prompt.groups p = Some l ∧ g ∈ l).
Proof.
  intros Hs Hc Hg shown.
  unfold getGroups in Hg. rewrite sort_perm in Hg.
  destruct (groups_fold (prompts w) []) as [_ Hin]. simpl in Hin.
  apply Hin in Hg as [Hg|(q & l & Hq & Hl & Hg)]; [by apply elem_of_nil in Hg|].
  assert (∀ p, p ∈ shown ↔
               p ∈ prompts w ∧
               (g = [] ∨ ∃ l, Prompt.groups p = Some l ∧ g ∈ l)) as Hshown.
  { intros p. subst shown. rewrite elem_of_getFilteredPrompts. simpl.
    unfold passes, search_ok, category_ok, group_ok. simpl.
    rewrite Hs, Hc. intuition. }
  split.
  - apply (not_nil_elem_of _ q). apply Hshown. split; [done|].
    right. by exists l.
  - intros Hne p. rewrite Hshown. intuition.
Qed.

(** ** What the form parsing leaves in [groups] *)

Lemma or_else_default_nonempty o : or_else o defaultCategory ≠ [].
Proof.
  destruct o as [s|]; simpl; [|done].
  destruct (truthy s) eqn:E; [by apply truthy_true | done].
Qed.

Lemma Stripped_comma_free p t : Stripped p t → comma ∉ p → comma ∉ t.
Proof.
  intros (l & r & -> & _) Hp Ht. apply Hp.
  rewrite !elem_of_app. auto.
Qed.

Lemma elem_of_map {A B} (f : A → B) l y : y ∈ map f l ↔ ∃ x, y = f x ∧ x ∈ l.
Proof.
  rewrite list_elem_of_In, in_map_iff. split.
  - intros (x & <- & Hx). exists x. by rewrite list_elem_of_In.
  - intros (x & -> & Hx). exists x. by rewrite <- list_elem_of_In.
Qed.

(** X4: whatever is typed in the groups field, every label that
    [addPrompt] and [updatePrompt] store is non-empty, holds no comma and
    has no whitespace at either end. *)
Theorem parseGroups_clean input : Forall clean (parseGroups input).
Proof.
  destruct input as [s|]; simpl; [|constructor].
  destruct (truthy s); [|constructor].
  apply Forall_forall. intros t [Ht Hne]%elem_of_List_filter.
  apply elem_of_map in Ht as (p & -> & Hp).
  destruct (split_SplitOn comma s) as (_ & _ & Hfree).
  rewrite Forall_forall in Hfree. specialize (Hfree p Hp). simpl in Hfree.
  pose proof (trim_Stripped p) as Hst.
  split_and!.
  - by apply truthy_true.
  - by apply (Stripped_comma_free p).
  - by destruct Hst as (l & r & _ & _ & _ & Hh & _).
  - by destruct Hst as (l & r & _ & _ & _ & _ & Hl).
Qed.

Lemma join_str_cons_cons sep x y rest :
  join_str sep (x :: y :: rest) = x ++ sep ++ join_str sep (y :: rest).
Proof. done. Qed.

Lemma join_str_push c sep g rest :
  c :: join_str sep (g :: rest) = join_str sep ((c :: g) :: rest).
Proof. by destruct rest. Qed.

Lemma split_join_str g rest :
  Forall (λ x, comma ∉ x) (g :: rest) →
  split comma (join_str (js ", ") (g :: rest)) = g :: map (cons 0x20) rest.
Proof.
  revert g. induction rest as [|g2 rest IH]; intros g Hfree;
    apply Forall_cons in Hfree as [Hg Hfree].
  - simpl. unfold split. by rewrite split_from_piece.
  - rewrite join_str_cons_cons.
    change (js ", " ++ join_str (js ", ") (g2 :: rest))
      with (comma :: 0x20 :: join_str (js ", ") (g2 :: rest)).
    unfold split. rewrite split_from_sep by done. rewrite join_str_push.
    change (map (cons 0x20) (g2 :: rest))
      with ((0x20 :: g2) :: map (cons 0x20) rest).
    f_equal. apply IH.
    apply Forall_cons in Hfree as [Hg2 Hfree].
    constructor; [|done].
    apply not_elem_of_cons. split; [done | done].
Qed.

Lemma trim_clean g : clean g → trim g = g.
Proof.
  intros (_ & _ & Hh & Hl). symmetry. apply Stripped_trim.
  exists [], []. rewrite app_nil_r. split_and!; try done; constructor.
Qed.

Lemma trim_space_clean g : clean g → trim (0x20 :: g) = g.
Proof.
  intros (_ & _ & Hh & Hl). symmetry. apply Stripped_trim.
  exists [0x20], []. rewrite app_nil_r.
  split_and!; try done; by repeat constructor.
Qed.

Lemma filter_trim_spaces rest :
  Forall clean rest →
  List.filter truthy (map trim (map (cons 0x20) rest)) = rest.
Proof.
  induction 1 as [|x rest Hx _ IH]; [done|].
  cbn [map]. rewrite trim_space_clean by done. cbn [List.filter].
  destruct Hx as (Hxne & _). destruct x as [|c x]; [done|].
  cbn [truthy]. by rewrite IH.
Qed.

(** X5: the text [openEditModal] writes in the groups field, the labels
    joined by [", "], parses back to the same labels, provided they are
    labels as the form parsing leaves them. *)
Theorem parseGroups_join gs :
  Forall clean gs → parseGroups (Some (join_str (js ", ") gs)) = gs.
Proof.
  intros Hgs. destruct gs as [|g rest]; [done|].
  assert (truthy (join_str (js ", ") (g :: rest)) = true) as Htruthy.
  { apply Forall_cons in Hgs as [(Hne & _) _].
    destruct g as [|c g]; [done|]. by destruct rest. }
  unfold parseGroups. rewrite Htruthy, split_join_str.
  2:{ eapply Forall_impl; [exact Hgs|]. by intros x (_ & ? & _). }
  apply Forall_cons in Hgs as [Hg Hrest].
  cbn [map]. rewrite trim_clean by done. cbn [List.filter].
  destruct Hg as (Hne & _). destruct g as [|c g]; [done|].
  cbn [truthy]. by rewrite filter_trim_spaces.
Qed.

Lemma parseGroups_join_witness :
  Forall clean [js "dev"; js "team a"] ∧
  parseGroups (Some (join_str (js ", ") [js "dev"; js "team a"]))
    = [js "dev"; js "team a"].
Proof.
  assert (Forall clean [js "dev"; js "team a"]) as H.
  { repeat constructor; try done; try by_evaluation;
      intros c [= <-]; by vm_compute. }
  split; [exact H|].
  exact (parseGroups_join [js "dev"; js "team a"] H).
Defined.

(** ** What every call keeps *)

Lemma newPrompt_written h data : written (newPrompt h data).
Proof.
  split; [apply or_else_default_nonempty|].
  eexists. split; [reflexivity | apply parseGroups_clean].
Qed.

Lemma updatedPrompt_written h data old : written (updatedPrompt h data old).
Proof.
  split; [apply or_else_default_nonempty|].
  eexists. split; [reflexivity | apply parseGroups_clean].
Qed.

Lemma prompts_updatePrompt h id data w :
  prompts (exec (updatePrompt h id data) w) =
  let index := findIndex (λ p, str_eqb (Prompt.id p) id) (prompts w) in
  if (index =? -1)%Z then prompts w
  else alter (updatedPrompt h data) (Z.to_nat index) (prompts w).
Proof.
  unfold exec. rewrite updatePrompt_run. simpl.
  destruct (_ =? _)%Z; [done|]. by destruct (storageSetOk h).
Qed.

(** X6: every prompt found in the collection after an add, an update or
    a delete was either there before the call or has a non-empty category
    and a [groups] array of clean labels; so if all prompts of the
    collection are of that shape, they still are after the call. *)
Theorem written_kept h c w :
  (∀ q, q ∈ prompts (exec (run h c) w) → q ∈ prompts w ∨ written q) ∧
  (Forall written (prompts w) →
   Forall written (prompts (exec (run h c) w))).
Proof.
  assert (∀ q, q ∈ prompts (exec (run h c) w) → q ∈ prompts w ∨ written q)
    as Hnew.
  { intros q Hq. destruct c as [data|id data|id]; simpl in Hq.
    - rewrite prompts_addPrompt in Hq.
      apply elem_of_cons in Hq as [->|Hq]; [right | by left].
      apply newPrompt_written.
    - rewrite prompts_updatePrompt in Hq. simpl in Hq.
      destruct (_ =? _)%Z; [by left|].
      apply list_elem_of_lookup in Hq as [j Hj].
      destruct (decide
        (j = Z.to_nat (findIndex (λ p, str_eqb (Prompt.id p) id) (prompts w))))
        as [->|Hne].
      + rewrite list_lookup_alter_eq in Hj.
        destruct (prompts w !! _) as [old|]; simpl in Hj; [|done].
        injection Hj as <-. right. apply updatedPrompt_written.
      + rewrite list_lookup_alter_ne in Hj by done.
        left. by eapply list_elem_of_lookup_2.
    - rewrite prompts_deletePrompt in Hq.
      apply elem_of_List_filter in Hq as [Hq _]. by left. }
  split; [exact Hnew|].
  intros Hw. rewrite Forall_forall in Hw |- *. intros q Hq.
  destruct (Hnew q Hq) as [Hold|Hwritten]; [by apply Hw | done].
Qed.

(** The collection of the sample holds two written prompts; the update
    rewrites the first of them. *)
Lemma written_kept_witness :
  let w := mkWorld [Sample.p_work; Sample.p_twin] Filter.empty
                   (Some [Sample.p_work; Sample.p_twin]) [] in
  let w' := exec (run Sample.host2 (Update (js "p1") Sample.form_a)) w in
  Forall written (prompts w) ∧
  prompts w' ≠ prompts w ∧
  Forall written (prompts w').
Proof.
  intros w w'.
  assert (Forall written (prompts w)) as H.
  { repeat constructor; try done; try by_evaluation;
      try (eexists; split; [reflexivity|]);
      repeat constructor; try done; try by_evaluation;
      intros c [= <-]; by vm_compute. }
  split_and!; [exact H | by vm_compute |].
  exact (proj2 (written_kept Sample.host2 (Update (js "p1") Sample.form_a) w) H).
Defined.

(** ** delete, on any collection *)

(** X7: for every collection, [deletePrompt(id)] keeps exactly the prompts
    whose id differs from [id], in their order; afterwards no prompt of
    the collection has that id. *)
Theorem delete_removes_all h id w :
  let ps' := prompts (exec (deletePrompt h id) w) in
  Selects (λ p, Prompt.id p ≠ id) (prompts w) ps' ∧
  id ∉ Prompt.id <$> ps'.
Proof.
  simpl. rewrite prompts_deletePrompt. split.
  - apply Selects_filter. intros p.
    rewrite negb_true_iff. apply str_eqb_neq.
  - intros (p & -> & [_ Hp]%elem_of_List_filter)%list_elem_of_fmap.
    apply negb_true_iff, str_eqb_neq in Hp. done.
Qed.

(** X8: once [deletePrompt(id)] has run, deleting the same id again
    leaves the collection as it is, and [updatePrompt(id, data)] returns
    without doing anything. *)
Theorem delete_then_nothing_left h h' id data w :
  let w1 := exec (deletePrompt h id) w in
  prompts (exec (deletePrompt h' id) w1) = prompts w1 ∧
  updatePrompt h' id data w1 = (Normal tt, w1).
Proof.
  simpl. destruct (delete_removes_all h id w) as [_ Hgone]. simpl in Hgone.
  split.
  - rewrite (prompts_deletePrompt h'). by apply filter_ids_absent.
  - rewrite updatePrompt_run. simpl. by rewrite findIndex_absent.
Qed.

(** ** update keeps identities *)

Lemma fmap_alter_same {A B} (g : A → B) (f : A → A) (l : list A) (i : nat) :
  (∀ x, g (f x) = g x) → g <$> alter f i l = g <$> l.
Proof.
  intros Hgf. rewrite (list_fmap_alter g f id).
  - by apply list_alter_id.
  - apply Forall_forall. intros x _. apply Hgf.
Qed.

(** X9: [updatePrompt] never changes which ids the collection holds, nor
    where, nor any [createdAt]: the sequences of ids and of creation times
    are the same before and after, for every collection, id and data. *)
Theorem update_keeps_identity h id data w :
  let ps' := prompts (exec (updatePrompt h id data) w) in
  Prompt.id <$> ps' = Prompt.id <$> prompts w ∧
  Prompt.createdAt <$> ps' = Prompt.createdAt <$> prompts w ∧
  length ps' = length (prompts w).
Proof.
  simpl. rewrite prompts_updatePrompt. simpl.
  destruct (_ =? _)%Z; [done|].
  split_and!; [by apply fmap_alter_same | by apply fmap_alter_same |].
  apply length_alter.
Qed.

Lemma List_filter_sublist {A} (f : A → bool) l : List.filter f l `sublist_of` l.
Proof.
  induction l as [|x l IH]; simpl; [constructor|].
  destruct (f x); by constructor.
Qed.

(** X10: unique ids are kept by every call: by [updatePrompt] and
    [deletePrompt] always, by [addPrompt] when the id that [generateId]
    returns is not already in the collection. *)
Theorem unique_ids_kept h c w :
  unique_ids (prompts w) →
  (∀ data, c = Add data → PM.generateId h ∉ Prompt.id <$> prompts w) →
  unique_ids (prompts (exec (run h c) w)).
Proof.
  unfold unique_ids. intros Hnd Hfresh. destruct c as [data|id data|id]; simpl.
  - rewrite prompts_addPrompt, fmap_cons. apply NoDup_cons. split; [|done].
    by apply (Hfresh data).
  - by destruct (update_keeps_identity h id data w) as [-> _].
  - rewrite prompts_deletePrompt. eapply sublist_NoDup; [exact Hnd|].
    apply fmap_sublist, List_filter_sublist.
Qed.

Lemma unique_ids_kept_witness :
  unique_ids (prompts Sample.two) ∧
  (∀ data, Add Sample.form_a = Add data →
           PM.generateId Sample.host1 ∉ Prompt.id <$> prompts Sample.two) ∧
  unique_ids (prompts (exec (run Sample.host1 (Add Sample.form_a)) Sample.two)).
Proof.
  assert (unique_ids (prompts Sample.two)) as H1 by by_evaluation.
  assert (∀ data, Add Sample.form_a = Add data →
            PM.generateId Sample.host1 ∉ Prompt.id <$> prompts Sample.two) as H2
    by (intros data _; by_evaluation).
  split_and!; [exact H1 | exact H2 |].
  exact (unique_ids_kept Sample.host1 (Add Sample.form_a) Sample.two H1 H2).
Defined.

(** ** The stored copy *)

Lemma run_accepted h c w :
  storageSetOk h = true →
  completion (run h c) w = Normal tt ∧
  (storage (exec (run h c) w) = Some (prompts (exec (run h c) w)) ∨
   exec (run h c) w = w).
Proof.
  intros Hok. unfold completion, exec. destruct c as [data|id data|id]; simpl.
  - rewrite addPrompt_run. simpl. rewrite Hok. simpl. auto.
  - rewrite updatePrompt_run. simpl.
    destruct (_ =? _)%Z; simpl; [auto|]. rewrite Hok. simpl. auto.
  - rewrite deletePrompt_run. simpl. rewrite Hok. simpl. auto.
Qed.

Lemma init_run st :
  init (constructed st) =
  (Normal tt,
   mkWorld (default [] st) (Filter.mk [] [] []) st
           [BindEvents; Render; UpdateFilters]).
Proof. unfold init. run. by destruct st. Qed.

(** X11: as long as the storage accepts the writes, the stored copy
    follows the collection: after [init] on any storage content and any
    run of adds, updates and deletes, a reload would show the collection
    the manager holds. *)
Theorem synced_after_run st calls :
  Forall (λ hc, storageSetOk hc.1 = true) calls →
  synced (runAll calls (exec init (constructed st))).
Proof.
  intros Hok.
  assert (synced (exec init (constructed st))) as Hsync.
  { unfold exec. rewrite init_run. done. }
  revert Hsync. generalize (exec init (constructed st)).
  induction Hok as [|[h c] calls Hh _ IH]; intros w Hsync; simpl; [done|].
  apply IH. simpl in Hh.
  destruct (run_accepted h c w Hh) as [_ [Hst| ->]]; [|done].
  unfold synced. by rewrite Hst.
Qed.

Lemma synced_after_run_witness :
  Forall (λ hc : Host * Call, storageSetOk hc.1 = true)
         [(Sample.host1, Add Sample.form_a);
          (Sample.host2, Update (js "lvo3k2a0x1") Sample.form_b);
          (Sample.host2, Delete (js "p1"))] ∧
  synced (runAll [(Sample.host1, Add Sample.form_a);
                  (Sample.host2, Update (js "lvo3k2a0x1") Sample.form_b);
                  (Sample.host2, Delete (js "p1"))]
                 (exec init (constructed (Some [Sample.p_work])))).
Proof.
  assert (Forall (λ hc : Host * Call, storageSetOk hc.1 = true)
                 [(Sample.host1, Add Sample.form_a);
                  (Sample.host2, Update (js "lvo3k2a0x1") Sample.form_b);
                  (Sample.host2, Delete (js "p1"))]) as H
    by (repeat constructor).
  split; [exact H|].
  exact (synced_after_run (Some [Sample.p_work]) _ H).
Defined.

(** X12: a call that completes after writing repairs an earlier rejected
    write: whatever the stored copy was, after a completed add, a
    completed delete, or a completed update of an id the collection
    holds, the stored copy is the collection. *)
Theorem completed_write_resyncs h c w :
  completion (run h c) w = Normal tt →
  (∀ id data, c = Update id data → id ∈ Prompt.id <$> prompts w) →
  storage (exec (run h c) w) = Some (prompts (exec (run h c) w)).
Proof.
  unfold completion, exec. intros Hdone Hpresent.
  destruct c as [data|id data|id]; simpl in *.
  - rewrite addPrompt_run in *. simpl in *.
    by destruct (storageSetOk h).
  - destruct (findIndex_present id (prompts w) (Hpresent id data eq_refl))
      as (i & old & Hi & _).
    rewrite updatePrompt_run in *. simpl in *. rewrite Hi in *.
    destruct (Z.eqb_spec (Z.of_nat i) (-1)) as [?|_]; [lia|].
    by destruct (storageSetOk h).
  - rewrite deletePrompt_run in *. simpl in *.
    by destruct (storageSetOk h).
Qed.

Lemma completed_write_resyncs_witness :
  let stale :=
    exec (addPrompt Sample.host_full Sample.form_a) Sample.two in
  completion (run Sample.host2 (Delete (js "p2"))) stale = Normal tt ∧
  (∀ id data, Delete (js "p2") = Update id data →
              id ∈ Prompt.id <$> prompts stale) ∧
  storage stale ≠ Some (prompts stale) ∧
  storage (exec (run Sample.host2 (Delete (js "p2"))) stale)
    = Some (prompts (exec (run Sample.host2 (Delete (js "p2"))) stale)).
Proof.
  intros stale.
  assert (completion (run Sample.host2 (Delete (js "p2"))) stale = Normal tt)
    as H1 by reflexivity.
  assert (∀ id data, Delete (js "p2") = Update id data →
                     id ∈ Prompt.id <$> prompts stale) as H2
    by (intros id data [=]).
  split_and!; [exact H1 | exact H2 | by vm_compute |].
  exact (completed_write_resyncs Sample.host2 (Delete (js "p2")) stale H1 H2).
Defined.

(** X13: when the storage rejects the write, nothing of a call reaches
    the stored copy or the panel; the call throws, unless it is an update
    of an id the collection does not hold, which does nothing at all. *)
Theorem rejected_write_stays_local h c w :
  storageSetOk h = false →
  storage (exec (run h c) w) = storage w ∧
  ui (exec (run h c) w) = ui w ∧
  currentFilter (exec (run h c) w) = currentFilter w ∧
  (completion (run h c) w = Throw ∨
   (∃ id data, c = Update id data ∧ (id ∉ Prompt.id <$> prompts w) ∧
               run h c w = (Normal tt, w))).
Proof.
  intros Hno. unfold completion, exec.
  destruct c as [data|id data|id]; simpl.
  - rewrite addPrompt_run. simpl. rewrite Hno. simpl. auto.
  - rewrite updatePrompt_run. simpl.
    destruct (decide (id ∈ Prompt.id <$> prompts w)) as [Hin|Hout].
    + destruct (findIndex_present id (prompts w) Hin) as (i & old & -> & _).
      destruct (Z.eqb_spec (Z.of_nat i) (-1)) as [?|_]; [lia|].
      rewrite Hno. simpl. auto.
    + rewrite findIndex_absent by done. simpl. split_and!; try done.
      right. by exists id, data.
  - rewrite deletePrompt_run. simpl. rewrite Hno. simpl. auto.
Qed.

Lemma rejected_write_stays_local_witness :
  storageSetOk Sample.host_full = false ∧
  storage (exec (run Sample.host_full (Delete (js "p1"))) Sample.two)
    = storage Sample.two ∧
  ui (exec (run Sample.host_full (Delete (js "p1"))) Sample.two)
    = ui Sample.two ∧
  currentFilter (exec (run Sample.host_full (Delete (js "p1"))) Sample.two)
    = currentFilter Sample.two ∧
  (completion (run Sample.host_full (Delete (js "p1"))) Sample.two = Throw ∨
   (∃ id data, Delete (js "p1") = Update id data ∧
               (id ∉ Prompt.id <$> prompts Sample.two) ∧
               run Sample.host_full (Delete (js "p1")) Sample.two
                 = (Normal tt, Sample.two))).
Proof.
  split; [reflexivity|].
  apply (rejected_write_stays_local Sample.host_full (Delete (js "p1")) Sample.two).
  reflexivity.
Defined.

(** X14: a prompt whose write was rejected is in the collection but lost
    on reload: after such an [addPrompt], [loadPrompts] brings back the
    collection as it was stored before, without the new prompt. *)
Theorem rejected_add_lost_on_reload h data w :
  storageSetOk h = false →
  let w1 := exec (addPrompt h data) w in
  prompts w1 = newPrompt h data :: prompts w ∧
  prompts (exec loadPrompts w1) = default [] (storage w).
Proof.
  intros Hno w1. subst w1. unfold exec. rewrite loadPrompts_run.
  rewrite addPrompt_run. cbv zeta. rewrite Hno. done.
Qed.

Lemma rejected_add_lost_on_reload_witness :
  storageSetOk Sample.host_full = false ∧
  let w1 := exec (addPrompt Sample.host_full Sample.form_a) Sample.two in
  prompts w1 = newPrompt Sample.host_full Sample.form_a :: prompts Sample.two ∧
  prompts (exec loadPrompts w1) = default [] (storage Sample.two).
Proof.
  split; [reflexivity|].
  apply (rejected_add_lost_on_reload Sample.host_full Sample.form_a Sample.two).
  reflexivity.
Defined.

Lemma listed_category_shows_prompts_witness :
  Filter.search (currentFilter Sample.two) = [] ∧
  Filter.group (currentFilter Sample.two) = [] ∧
  js "work" ∈ getCategories Sample.two ∧
  let shown := getFilteredPrompts asciiLower
                 (exec (onCategoryChange (js "work")) Sample.two) in
  shown ≠ [] ∧
  ∀ p, p ∈ shown ↔ p ∈ prompts Sample.two ∧ Prompt.category p = js "work".
Proof.
  assert (js "work" ∈ getCategories Sample.two) as H by by_evaluation.
  split_and!; [reflexivity | reflexivity | exact H |].
  exact (listed_category_shows_prompts asciiLower Sample.two (js "work")
           eq_refl eq_refl H).
Defined.

Lemma listed_group_shows_prompts_witness :
  Filter.search (currentFilter Sample.two) = [] ∧
  Filter.category (currentFilter Sample.two) = [] ∧
  js "team" ∈ getGroups Sample.two ∧
  let shown := getFilteredPrompts asciiLower
                 (exec (onGroupChange (js "team")) Sample.two) in
  shown ≠ [] ∧
  (js "team" ≠ [] →
   ∀ p, p ∈ shown ↔
        p ∈ prompts Sample.two ∧
        ∃ l, Prompt.groups p = Some l ∧ js "team" ∈ l).
Proof.
  assert (js "team" ∈ getGroups Sample.two) as H by by_evaluation.
  split_and!; [reflexivity | reflexivity | exact H |].
  exact (listed_group_shows_prompts asciiLower Sample.two (js "team")
           eq_refl eq_refl H).
Defined.

(** ** The edit modal *)

Lemma find_first {A} (f : A → bool) (l : list A) (k : nat) x :
  l !! k = Some x → f x = true →
  (∀ (j : nat) y, (j < k)%nat → l !! j = Some y → f y = false) →
  find f l = Some x.
Proof.
  revert k. induction l as [|a l IH]; intros [|k] Hk Hx Hlt; simpl in *;
    try done.
  - injection Hk as ->. by rewrite Hx.
  - rewrite (Hlt 0%nat a) by (done || lia).
    apply (IH k); [done | done |].
    intros j y Hj Hy. apply (Hlt (S j)); [lia | done].
Qed.

Lemma find_none {A} (f : A → bool) (l : list A) :
  Forall (λ x, f x = false) l → find f l = None.
Proof. induction 1 as [|a l Ha _ IH]; simpl; [done|]. by rewrite Ha. Qed.

Lemma find_absent id (ps : list Prompt.t) :
  id ∉ Prompt.id <$> ps → find (λ p, str_eqb (Prompt.id p) id) ps = None.
Proof.
  intros Hid. apply find_none, Forall_forall. intros p Hp.
  apply str_eqb_neq. intros <-. apply Hid, list_elem_of_fmap. by exists p.
Qed.

(** In a collection with unique ids, the prompt at a position is the one
    [find] and [findIndex] reach through its id. *)
Lemma lookup_by_id (ps : list Prompt.t) (i : nat) p :
  unique_ids ps → ps !! i = Some p →
  find (λ q, str_eqb (Prompt.id q) (Prompt.id p)) ps = Some p ∧
  findIndex (λ q, str_eqb (Prompt.id q) (Prompt.id p)) ps = Z.of_nat i.
Proof.
  intros Huniq Hi.
  assert (Prompt.id p ∈ Prompt.id <$> ps) as Hin.
  { apply list_elem_of_fmap. exists p. split; [done|].
    by eapply list_elem_of_lookup_2. }
  destruct (findIndex_present _ ps Hin) as (k & old & Hk & Hold & Hid & Hfirst).
  assert (k = i) as ->.
  { apply (NoDup_lookup (Prompt.id <$> ps) k i (Prompt.id p) Huniq).
    - by rewrite list_lookup_fmap, Hold, <- Hid.
    - by rewrite list_lookup_fmap, Hi. }
  split; [|done].
  apply (find_first _ ps i); [done | by apply str_eqb_eq |].
  intros j y Hj Hy. apply str_eqb_neq. by apply (Hfirst j).
Qed.

Lemma alter_as_insert {A} (f : A → A) (l : list A) (i : nat) x :
  l !! i = Some x → alter f i l = <[i := f x]> l.
Proof.
  intros Hi. apply list_eq. intros j. destruct (decide (j = i)) as [->|Hj].
  - rewrite list_lookup_alter_eq, Hi, list_lookup_insert_eq; [done|].
    by eapply lookup_lt_Some.
  - by rewrite list_lookup_alter_ne, list_lookup_insert_ne.
Qed.

Lemma mgr_onSubmit h pg :
  mgr (onSubmit h pg).2 =
  exec (if truthy (promptId (modal pg))
        then updatePrompt h (promptId (modal pg)) (formData (modal pg))
        else addPrompt h (formData (modal pg)))
       (mgr pg).
Proof.
  unfold onSubmit, call, exec.
  destruct (truthy (promptId (modal pg)));
    match goal with
    | |- context [?m (mgr pg)] =>
        match type of m with M unit => destruct (m (mgr pg)) as [[[]|] w'] end
    end; done.
Qed.

(** X15: opening a prompt in the edit modal and submitting the form as
    the modal filled it changes nothing but [updatedAt]: for a prompt as
    the manager writes them, with a non-empty id, in a collection with
    unique ids, the title, content, category and groups written to the
    form come back as they were. *)
Theorem edit_unchanged_roundtrip h w m0 (i : nat) p :
  unique_ids (prompts w) →
  prompts w !! i = Some p →
  written p →
  Prompt.id p ≠ [] →
  let pg := openEditModal (Prompt.id p) (mkPage w m0) in
  prompts (mgr (onSubmit h pg).2) =
  <[i := Prompt.mk (Prompt.id p) (Prompt.title p) (Prompt.content p)
                   (Prompt.category p) (Prompt.groups p)
                   (Prompt.createdAt p) (isoNow h)]> (prompts w).
Proof.
  intros Huniq Hi (Hcat & gs & Hgs & Hclean) Hid pg.
  destruct (lookup_by_id (prompts w) i p Huniq Hi) as [Hfind Hindex].
  subst pg. unfold openEditModal. simpl. rewrite Hfind.
  rewrite mgr_onSubmit. simpl.
  assert (truthy (Prompt.id p) = true) as -> by by apply truthy_true.
  rewrite prompts_updatePrompt. simpl. rewrite Hindex.
  destruct (Z.eqb_spec (Z.of_nat i) (-1)) as [?|_]; [lia|].
  rewrite Nat2Z.id, (alter_as_insert _ _ _ p Hi). f_equal.
  unfold updatedPrompt, formData, groupsText.
  cbn [Data.title Data.content Data.category Data.groups
       title content category groups or_else].
  assert (truthy (Prompt.category p) = true) as -> by by apply truthy_true.
  rewrite Hgs, parseGroups_join by done. done.
Qed.

Lemma edit_unchanged_roundtrip_witness :
  unique_ids (prompts Sample.two) ∧
  prompts Sample.two !! 0%nat = Some Sample.p_work ∧
  written Sample.p_work ∧
  Prompt.id Sample.p_work ≠ [] ∧
  let pg := openEditModal (Prompt.id Sample.p_work)
              (mkPage Sample.two (mkModal [] [] [] [] [] [] [] [])) in
  prompts (mgr (onSubmit Sample.host2 pg).2) =
  <[0%nat := Prompt.mk (Prompt.id Sample.p_work) (Prompt.title Sample.p_work)
                   (Prompt.content Sample.p_work)
                   (Prompt.category Sample.p_work) (Prompt.groups Sample.p_work)
                   (Prompt.createdAt Sample.p_work) (isoNow Sample.host2)]>
    (prompts Sample.two).
Proof.
  assert (unique_ids (prompts Sample.two)) as H1 by by_evaluation.
  assert (written Sample.p_work) as H3.
  { split; [done|]. eexists. split; [reflexivity|].
    repeat constructor; try done; try by_evaluation;
      intros c [= <-]; by vm_compute. }
  assert (Prompt.id Sample.p_work ≠ []) as H4 by done.
  split_and!; [exact H1 | reflexivity | exact H3 | exact H4 |].
  exact (edit_unchanged_roundtrip Sample.host2 Sample.two
           (mkModal [] [] [] [] [] [] [] []) 0 Sample.p_work
           H1 eq_refl H3 H4).
Defined.

(** X16: [openEditModal(id)] for an id that no prompt of the collection
    has leaves the page as it is: the modal is not opened and none of its
    fields is written. *)
Theorem openEditModal_unknown id pg :
  id ∉ Prompt.id <$> prompts (mgr pg) → openEditModal id pg = pg.
Proof. intros Hid. unfold openEditModal. by rewrite find_absent. Qed.

Lemma openEditModal_unknown_witness :
  (js "p9" ∉ Prompt.id <$>
     prompts (mgr (mkPage Sample.two (mkModal [] [] [] [] [] [] [] [])))) ∧
  openEditModal (js "p9") (mkPage Sample.two (mkModal [] [] [] [] [] [] [] []))
    = mkPage Sample.two (mkModal [] [] [] [] [] [] [] []).
Proof.
  assert (js "p9" ∉ Prompt.id <$>
            prompts (mgr (mkPage Sample.two (mkModal [] [] [] [] [] [] [] []))))
    as H by by_evaluation.
  split; [exact H|].
  exact (openEditModal_unknown (js "p9") _ H).
Defined.

(** X17: a form opened with [openAddModal] is always submitted as an add,
    never as an update, whatever [reset] does to the fields and whatever
    the modal held before: the collection gains one prompt in front, built
    from the fields of the form. *)
Theorem add_modal_submits_add reset h pg :
  let pg' := openAddModal reset pg in
  promptId (modal pg') = [] ∧
  editModal (modal pg') = js "flex" ∧
  prompts (mgr (onSubmit h pg').2) =
  newPrompt h (formData (modal pg')) :: prompts (mgr pg).
Proof.
  simpl. split_and!; [done | done |].
  rewrite mgr_onSubmit. simpl. by rewrite prompts_addPrompt.
Qed.

(** X18: the submit handler closes the modal exactly when the manager's
    method completes: when the storage accepts the write the handler
    returns and [#editModal] is hidden; when the handler throws, the
    storage had rejected the write and the modal is left as it was, with
    its fields. *)
Theorem submit_closes_when_saved h pg :
  let after := onSubmit h pg in
  (storageSetOk h = true →
     after.1 = Normal tt ∧ editModal (modal after.2) = js "none") ∧
  (after.1 = Normal tt → editModal (modal after.2) = js "none") ∧
  (after.1 = Throw →
     storageSetOk h = false ∧ modal after.2 = modal pg ∧
     storage (mgr after.2) = storage (mgr pg)).
Proof.
  simpl. unfold onSubmit, call.
  set (c := if truthy (promptId (modal pg))
            then Update (promptId (modal pg)) (formData (modal pg))
            else Add (formData (modal pg))).
  assert ((if truthy (promptId (modal pg))
           then updatePrompt h (promptId (modal pg)) (formData (modal pg))
           else addPrompt h (formData (modal pg))) = run h c) as ->.
  { subst c. by destruct (truthy _). }
  destruct (storageSetOk h) eqn:Hok.
  - destruct (run_accepted h c (mgr pg) Hok) as [Hdone _].
    unfold completion in Hdone.
    destruct (run h c (mgr pg)) as [[[]|] w']; simpl in *; try done.
  - destruct (rejected_write_stays_local h c (mgr pg) Hok) as (Hst & _ & _ & _).
    unfold exec in Hst.
    destruct (run h c (mgr pg)) as [[[]|] w']; simpl in *; done.
Qed.

(** X19: the delete button does nothing when the confirmation is
    declined; when it is confirmed and the storage accepts the write, no
    prompt with the id held by the form is left and the modal is closed. *)
Theorem delete_click h pg :
  onDeleteClick h false pg = (Normal tt, pg) ∧
  (storageSetOk h = true →
   let after := onDeleteClick h true pg in
   after.1 = Normal tt ∧
   (promptId (modal pg) ∉ Prompt.id <$> prompts (mgr after.2)) ∧
   editModal (modal after.2) = js "none" ∧
   storage (mgr after.2) = Some (prompts (mgr after.2))).
Proof.
  split; [done|]. intros Hok. simpl. unfold onDeleteClick, call.
  destruct (delete_removes_all h (promptId (modal pg)) (mgr pg)) as [_ Hgone].
  simpl in Hgone. unfold exec in Hgone.
  rewrite deletePrompt_run in *. simpl in *. rewrite Hok in *. simpl in *.
  done.
Qed.

(** ** Numbers as text *)

Lemma digitValue_digitChar d : digitValue (digitChar d) = d.
Proof.
  unfold digitValue, digitChar.
  destruct (N.ltb_spec d 10).
  - destruct (N.ltb_spec (0x30 + d) 0x3A); lia.
  - destruct (N.ltb_spec (0x57 + d) 0x3A); lia.
Qed.

Lemma digitChar_not_minus d : digitChar d ≠ 0x2D.
Proof. unfold digitChar. destruct (d <? 10); lia. Qed.

Lemma digits_go_acc fuel radix n acc :
  digits_go fuel radix n acc = digits_go fuel radix n [] ++ acc.
Proof.
  revert n acc. induction fuel as [|fuel IH]; intros n acc; simpl; [done|].
  destruct (n <? radix); [done|].
  rewrite (IH _ (_ :: acc)), (IH _ [_]), <- app_assoc. done.
Qed.

Lemma valueOf_snoc radix s c :
  valueOf radix (s ++ [c]) = valueOf radix s * radix + digitValue c.
Proof. unfold valueOf. by rewrite fold_left_app. Qed.

Lemma valueOf_digits_go (fuel : nat) radix n :
  2 ≤ radix → n < 2 ^ N.of_nat fuel →
  valueOf radix (digits_go fuel radix n []) = n.
Proof.
  intros Hr. revert n. induction fuel as [|fuel IH]; intros n Hn.
  - simpl in *. unfold valueOf. simpl. lia.
  - simpl. destruct (N.ltb_spec n radix) as [Hlt|Hge].
    + unfold valueOf. simpl. rewrite digitValue_digitChar.
      by apply N.mod_small.
    + rewrite digits_go_acc, valueOf_snoc, digitValue_digitChar, IH.
      * pose proof (N.div_mod' n radix). lia.
      * rewrite Nat2N.inj_succ, N.pow_succ_r' in Hn.
        apply N.Div0.div_lt_upper_bound.
        apply N.lt_le_trans with (2 * 2 ^ N.of_nat fuel); [done|].
        apply N.mul_le_mono_r. done.
Qed.

(** [digits] writes the number: reading the digits back gives it. *)
Lemma valueOf_digits radix n : 2 ≤ radix → valueOf radix (digits radix n) = n.
Proof.
  intros Hr. apply valueOf_digits_go; [done|].
  rewrite Nat2N.inj_succ, N2Nat.id.
  destruct n as [|p]; [done|].
  apply N.log2_spec. lia.
Qed.

Lemma digits_head radix n : ∃ d rest, digits radix n = digitChar d :: rest.
Proof.
  unfold digits. generalize (N.to_nat (N.log2 n)) as fuel.
  generalize (@nil N) as acc. intros acc fuel. revert n acc.
  induction fuel as [|fuel IH]; intros n acc; simpl.
  - destruct (n <? radix); eauto.
  - destruct (n <? radix); [eauto|]. apply IH.
Qed.

Lemma toStringRadix_inj radix x y :
  2 ≤ radix → toStringRadix radix x = toStringRadix radix y → x = y.
Proof.
  intros Hr Heq.
  assert (∀ a b, digits radix a = digits radix b → a = b) as Hinj.
  { intros a b Hab. rewrite <- (valueOf_digits radix a), <- (valueOf_digits radix b)
      by done. by rewrite Hab. }
  assert (∀ a p, digits radix a ≠ 0x2D :: digits radix p) as Hsign.
  { intros a p. destruct (digits_head radix a) as (d & rest & ->).
    intros [= Hd _]. by apply digitChar_not_minus in Hd. }
  destruct x as [|p|p], y as [|q|q]; simpl in Heq; try done;
    try (by apply Hsign in Heq); try (symmetry in Heq; by apply Hsign in Heq).
  - by apply Hinj in Heq.
  - by apply Hinj in Heq.
  - apply Hinj in Heq. by injection Heq as ->.
  - injection Heq as Heq. apply Hinj in Heq. by injection Heq as ->.
Qed.

(** ** [generateId] *)

(** X20: an id from [generateId] is never the empty string, so the submit
    handler never mistakes a prompt under edit for a new one; two ids made
    with the same random text differ as soon as the clock readings
    differ, and two ids made at the same clock reading are equal exactly
    when the random texts agree from their third code unit on. *)
Theorem generateId_separates :
  (∀ t r, truthy (Text.generateId t r) = true) ∧
  (∀ t1 t2 r, Text.generateId t1 r = Text.generateId t2 r → t1 = t2) ∧
  (∀ t r1 r2, Text.generateId t r1 = Text.generateId t r2 ↔
              substr 2 r1 = substr 2 r2).
Proof.
  unfold Text.generateId. split_and!.
  - intros t r.
    assert (∃ c rest, toStringRadix 36 t = c :: rest) as (c & rest & ->).
    { destruct t as [|p|p]; simpl; [| |by eauto].
      - destruct (digits_head 36 0) as (d & rest & ->). eauto.
      - destruct (digits_head 36 (N.pos p)) as (d & rest & ->). eauto. }
    done.
  - intros t1 t2 r Heq. apply app_inv_tail in Heq.
    by apply (toStringRadix_inj 36).
  - intros t r1 r2. split; [apply app_inv_head | by intros ->].
Qed.

(** ** [formatDate] *)

Section FormatDateFacts.
Variable parseDate : jsstring → option Z.
Variable nowMs : Z.
Variable toLocaleDateString : option Z → jsstring.

(** X21: for a date at most a week old, [formatDate] gives a relative
    label: "just now" under a minute, then the whole minutes (1 to 59),
    the whole hours (1 to 23) and the whole days (1 to 6) elapsed, each
    written in decimal before its unit. *)
Theorem formatDate_relative iso (d : Z) :
  parseDate iso = Some d →
  (0 ≤ nowMs - d < 604800000)%Z →
  let diff := (nowMs - d)%Z in
  ((diff < 60000)%Z → Text.formatDate parseDate nowMs toLocaleDateString iso = justNow) ∧
  ((60000 ≤ diff < 3600000)%Z →
     (1 ≤ diff / 60000 ≤ 59)%Z ∧
     Text.formatDate parseDate nowMs toLocaleDateString iso = toStringRadix 10 (diff / 60000) ++ minutesAgo) ∧
  ((3600000 ≤ diff < 86400000)%Z →
     (1 ≤ diff / 3600000 ≤ 23)%Z ∧
     Text.formatDate parseDate nowMs toLocaleDateString iso = toStringRadix 10 (diff / 3600000) ++ hoursAgo) ∧
  ((86400000 ≤ diff)%Z →
     (1 ≤ diff / 86400000 ≤ 6)%Z ∧
     Text.formatDate parseDate nowMs toLocaleDateString iso = toStringRadix 10 (diff / 86400000) ++ daysAgo).
Proof.
  intros Hd Hrange diff. unfold Text.formatDate. rewrite Hd. simpl.
  fold diff. split_and!; intros Hcase.
  - destruct (Z.ltb_spec diff 86400000); [|lia].
    rewrite (Z.div_small diff 3600000) by lia. simpl.
    by rewrite (Z.div_small diff 60000) by lia.
  - assert (1 ≤ diff / 60000 ≤ 59)%Z as Hm.
    { split; [apply Z.div_le_lower_bound; lia|].
      apply Z.lt_succ_r, Z.div_lt_upper_bound; lia. }
    split; [done|].
    destruct (Z.ltb_spec diff 86400000); [|lia].
    rewrite (Z.div_small diff 3600000) by lia. simpl.
    destruct (Z.eqb_spec (diff / 60000) 0); [lia | done].
  - assert (1 ≤ diff / 3600000 ≤ 23)%Z as Hh.
    { split; [apply Z.div_le_lower_bound; lia|].
      apply Z.lt_succ_r, Z.div_lt_upper_bound; lia. }
    split; [done|].
    destruct (Z.ltb_spec diff 86400000); [|lia].
    destruct (Z.eqb_spec (diff / 3600000) 0); [lia | done].
  - assert (1 ≤ diff / 86400000 ≤ 6)%Z as Hdays.
    { split; [apply Z.div_le_lower_bound; lia|].
      apply Z.lt_succ_r, Z.div_lt_upper_bound; lia. }
    split; [done|].
    destruct (Z.ltb_spec diff 86400000); [lia|].
    destruct (Z.ltb_spec diff 604800000); [done | lia].
Qed.

(** X22: for a date that lies after the clock reading, [formatDate]
    gives an hours label with a negative count: the text begins with a
    minus sign. *)
Theorem formatDate_future iso (d : Z) :
  parseDate iso = Some d →
  (nowMs < d)%Z →
  ((nowMs - d) / 3600000 ≤ -1)%Z ∧
  Text.formatDate parseDate nowMs toLocaleDateString iso = toStringRadix 10 ((nowMs - d) / 3600000) ++ hoursAgo ∧
  head (Text.formatDate parseDate nowMs toLocaleDateString iso) = Some 0x2D.
Proof.
  intros Hd Hlt.
  assert ((nowMs - d) / 3600000 ≤ -1)%Z as Hneg.
  { apply Z.lt_succ_r, Z.div_lt_upper_bound; lia. }
  assert (Text.formatDate parseDate nowMs toLocaleDateString iso = toStringRadix 10 ((nowMs - d) / 3600000) ++ hoursAgo)
    as Heq.
  { unfold Text.formatDate. rewrite Hd. simpl.
    destruct (Z.ltb_spec (nowMs - d) 86400000); [|lia].
    destruct (Z.eqb_spec ((nowMs - d) / 3600000) 0); [lia | done]. }
  split_and!; [done | done |].
  rewrite Heq. destruct ((nowMs - d) / 3600000)%Z; [lia | lia | done].
Qed.

(** X23: a date that cannot be read, or one a week old or older, is
    never given a relative label: [formatDate] is what
    [toLocaleDateString] answers for it. *)
Theorem formatDate_absolute iso :
  (parseDate iso = None ∨
   ∃ d, parseDate iso = Some d ∧ (604800000 ≤ nowMs - d)%Z) →
  Text.formatDate parseDate nowMs toLocaleDateString iso = toLocaleDateString (parseDate iso).
Proof.
  intros [Hnone|(d & Hd & Hold)]; unfold Text.formatDate.
  - by rewrite Hnone.
  - rewrite Hd. simpl.
    destruct (Z.ltb_spec (nowMs - d) 86400000); [lia|].
    destruct (Z.ltb_spec (nowMs - d) 604800000); [lia | done].
Qed.

End FormatDateFacts.

(** ** [escapeHtml] *)

Lemma escapeUnit_plain c :
  c ≠ 0x26 → c ≠ 0xA0 → c ≠ 0x3C → c ≠ 0x3E → escapeUnit c = [c].
Proof.
  intros. unfold escapeUnit.
  by repeat match goal with
            | |- context [?a =? ?b] => destruct (N.eqb_spec a b); [done|]
            end.
Qed.

Lemma escapeUnit_no_angle c :
  (0x3C ∉ escapeUnit c) ∧ (0x3E ∉ escapeUnit c).
Proof.
  unfold escapeUnit.
  repeat match goal with
         | |- context [?a =? ?b] =>
             destruct (N.eqb_spec a b); [split; by_evaluation|]
         end.
  rewrite !list_elem_of_singleton. split; congruence.
Qed.

(** X24: whatever the text, [escapeHtml] returns a string without [<]
    and without [>]; a text without [&], [<], [>] and U+00A0 is returned
    as it is. *)
Theorem escapeHtml_no_markup text :
  (0x3C ∉ escapeHtml text) ∧
  (0x3E ∉ escapeHtml text) ∧
  (Forall (λ c, c ≠ 0x26 ∧ c ≠ 0xA0 ∧ c ≠ 0x3C ∧ c ≠ 0x3E) text →
   escapeHtml text = text).
Proof.
  unfold escapeHtml. split_and!.
  - induction text as [|c text IH]; simpl; [apply not_elem_of_nil|].
    rewrite elem_of_app. intros [H|H]; [|done].
    by apply (proj1 (escapeUnit_no_angle c)).
  - induction text as [|c text IH]; simpl; [apply not_elem_of_nil|].
    rewrite elem_of_app. intros [H|H]; [|done].
    by apply (proj2 (escapeUnit_no_angle c)).
  - induction 1 as [|c text (? & ? & ? & ?) _ IH]; simpl; [done|].
    by rewrite escapeUnit_plain, IH.
Qed.

(** ** Searching *)

(** X25: with the category and group filters unset, typing the exact
    title of a prompt of the collection in the search box shows that
    prompt, whatever the host's lower-casing does. *)
Theorem search_by_title_shows toLowerCase w p :
  Filter.category (currentFilter w) = [] →
  Filter.group (currentFilter w) = [] →
  p ∈ prompts w →
  p ∈ getFilteredPrompts toLowerCase (exec (onSearchInput (Prompt.title p)) w).
Proof.
  intros Hc Hg Hp. apply elem_of_getFilteredPrompts. simpl.
  split; [done|].
  unfold passes, search_ok, category_ok, group_ok. simpl.
  rewrite Hc, Hg. split_and!; [|by left | by left].
  right. left. exists [], []. by rewrite app_nil_r.
Qed.

Lemma search_by_title_shows_witness :
  Filter.category (currentFilter Sample.two) = [] ∧
  Filter.group (currentFilter Sample.two) = [] ∧
  Sample.p_life ∈ prompts Sample.two ∧
  Sample.p_life ∈
    getFilteredPrompts asciiLower
      (exec (onSearchInput (Prompt.title Sample.p_life)) Sample.two).
Proof.
  assert (Sample.p_life ∈ prompts Sample.two) as H
    by (apply list_elem_of_further, list_elem_of_here).
  split_and!; [reflexivity | reflexivity | exact H |].
  exact (search_by_title_shows asciiLower Sample.two Sample.p_life
           eq_refl eq_refl H).
Defined.

(** ** Dates, at sample times *)

Lemma formatDate_relative_witness :
  let parse := (λ _ : jsstring, Some 1714557600000%Z) in
  let now := 1714557900000%Z in
  let locale := (λ _ : option Z, js "2024/05/01") in
  parse (js "2024-05-01T10:00:00.000Z") = Some 1714557600000%Z ∧
  (0 ≤ now - 1714557600000 < 604800000)%Z ∧
  let diff := (now - 1714557600000)%Z in
  let text := Text.formatDate parse now locale (js "2024-05-01T10:00:00.000Z") in
  ((diff < 60000)%Z → text = justNow) ∧
  ((60000 ≤ diff < 3600000)%Z →
     (1 ≤ diff / 60000 ≤ 59)%Z ∧
     text = toStringRadix 10 (diff / 60000) ++ minutesAgo) ∧
  ((3600000 ≤ diff < 86400000)%Z →
     (1 ≤ diff / 3600000 ≤ 23)%Z ∧
     text = toStringRadix 10 (diff / 3600000) ++ hoursAgo) ∧
  ((86400000 ≤ diff)%Z →
     (1 ≤ diff / 86400000 ≤ 6)%Z ∧
     text = toStringRadix 10 (diff / 86400000) ++ daysAgo).
Proof.
  intros parse now locale.
  assert (0 ≤ now - 1714557600000 < 604800000)%Z as H by (subst now; lia).
  split; [reflexivity|]. split; [exact H|].
  exact (formatDate_relative parse now locale
           (js "2024-05-01T10:00:00.000Z") 1714557600000%Z eq_refl H).
Defined.

Lemma formatDate_future_witness :
  let parse := (λ _ : jsstring, Some 1714557600000%Z) in
  let now := 1714557599000%Z in
  let locale := (λ _ : option Z, js "2024/05/01") in
  parse (js "2024-05-01T10:00:00.000Z") = Some 1714557600000%Z ∧
  (now < 1714557600000)%Z ∧
  ((now - 1714557600000) / 3600000 ≤ -1)%Z ∧
  Text.formatDate parse now locale (js "2024-05-01T10:00:00.000Z")
    = toStringRadix 10 ((now - 1714557600000) / 3600000) ++ hoursAgo ∧
  head (Text.formatDate parse now locale (js "2024-05-01T10:00:00.000Z"))
    = Some 0x2D.
Proof.
  intros parse now locale.
  assert (now < 1714557600000)%Z as H by (subst now; lia).
  split; [reflexivity|]. split; [exact H|].
  exact (formatDate_future parse now locale
           (js "2024-05-01T10:00:00.000Z") 1714557600000%Z eq_refl H).
Defined.

Lemma formatDate_absolute_witness :
  let parse := (λ _ : jsstring, @None Z) in
  let locale := (λ _ : option Z, js "Invalid Date") in
  (parse (js "soon") = None ∨
   ∃ d, parse (js "soon") = Some d ∧ (604800000 ≤ 1714557600000 - d)%Z) ∧
  Text.formatDate parse 1714557600000%Z locale (js "soon")
    = locale (parse (js "soon")).
Proof.
  intros parse locale.
  assert (parse (js "soon") = None ∨
          ∃ d, parse (js "soon") = Some d ∧ (604800000 ≤ 1714557600000 - d)%Z)
    as H by (by left).
  split; [exact H|].
  exact (formatDate_absolute parse 1714557600000%Z locale (js "soon") H).
Defined.

(** ** The rest of the script at work *)

Example toString_base36 : toStringRadix 36 1714557600000 = js "lvnnbr40".
Proof. reflexivity. Qed.

Example toString_negative : toStringRadix 10 (-90) = js "-90".
Proof. reflexivity. Qed.

Example generateId_sample :
  Text.generateId 1714557600000 (js "0.4fzyo82mvyr") = js "lvnnbr404fzyo82mvyr".
Proof. reflexivity. Qed.

(** [Math.random()] returning 0 gives the text ["0"], which [substr(2)]
    empties: the id is the clock reading alone. *)
Example generateId_random_zero :
  Text.generateId 1714557600000 (js "0") = js "lvnnbr40".
Proof. reflexivity. Qed.

Example formatDate_five_minutes :
  Text.formatDate (λ _, Some 1714557600000%Z) 1714557900000
                  (λ _, js "2024/05/01") (js "2024-05-01T10:00:00.000Z")
  = 0x35 :: minutesAgo.
Proof. reflexivity. Qed.

Example formatDate_one_second_ahead :
  Text.formatDate (λ _, Some 1714557600000%Z) 1714557599000
                  (λ _, js "2024/05/01") (js "2024-05-01T10:00:00.000Z")
  = js "-1" ++ hoursAgo.
Proof. reflexivity. Qed.

Example escapeHtml_sample :
  escapeHtml (js "<b>a&b</b>") = js "&lt;b&gt;a&amp;b&lt;/b&gt;".
Proof. reflexivity. Qed.

Example groupsText_sample : groupsText Sample.p_work = js "dev, team".
Proof. reflexivity. Qed.

Example openEditModal_sample :
  modal (openEditModal (js "p2")
           (mkPage Sample.two (mkModal [] [] [] [] [] [] [] []))) =
  mkModal editTitle (js "p2") (js "Groceries") (js "Milk and eggs")
          (js "life") [] (js "block") (js "flex").
Proof. reflexivity. Qed.

End Extras.
